(** * Neural graph construction protocol (nemo/core/neural_graph.py) and the
      application-state singleton (nemo/utils/app_state.py)

    A shallow embedding of [NeuralGraph] and of the [Singleton] meta-class.
    Python objects live in stores keyed by object identity, so that two
    references to one graph or one tensor observe each other's updates.
    Dictionaries keyed by port or module names are finite maps; the ordered
    collections ([_steps], the bound outputs, [**kwargs]) are lists. *)

From stdpp Require Import gmap strings list fin_maps.

Open Scope string_scope.
Open Scope list_scope.

(** ** Data model *)

(** [nemo.core.OperationMode]. *)
Inductive OperationMode := training | inference | both.

Global Instance OperationMode_eq_dec : EqDecision OperationMode.
Proof. solve_decision. Defined.

(** Modelled from the spec: the enumeration [NeuralTypeComparisonResult] is
    declared in nemo/core/neural_types, which is not part of the sources at
    hand.  The spec names SAME, GREATER, LESSER and INCOMPATIBLE "plus
    refinements for axis-count or axis-size mismatches". *)
Inductive NeuralTypeComparisonResult :=
  | SAME
  | GREATER
  | LESSER
  | INCOMPATIBLE
  | AXIS_COUNT_MISMATCH
  | AXIS_SIZE_MISMATCH.

Global Instance NeuralTypeComparisonResult_eq_dec :
  EqDecision NeuralTypeComparisonResult.
Proof. solve_decision. Defined.

(** Modelled from the spec: the Port Descriptor ([NeuralType]) is declared in
    nemo/core/neural_types; the spec gives it as an ordered sequence of axis
    tags and a semantic type tag. *)
Record NeuralType := MkNeuralType {
  axes : list string;
  elements_type : string
}.

(** A reference to a [NeuralInterface] object (a neural module, or a graph
    standing in for one): the identity of the object and its [name]
    property, which is assigned once by the constructor. *)
Record NeuralInterface := MkInterface {
  ni_id : nat;
  ni_name : string
}.

Global Instance NeuralInterface_eq_dec : EqDecision NeuralInterface.
Proof. solve_decision. Defined.

(** Modelled from the spec: the Tensor Handle ([NmTensor]) is declared
    outside the sources at hand.  It records its declared type, its producer,
    the producer's arguments by port name and the consumers in arrival
    order.  Tensors are referred to by object identity. *)
Record NmTensor := MkTensor {
  ntype : NeuralType;
  producer : NeuralInterface;
  producer_args : gmap string nat;
  consumers : list (NeuralInterface * string)
}.

(** One recorded step: the list [[module, inputs]] of [record_step]. *)
Abbreviation Step := (NeuralInterface * list (string * nat))%type (only parsing).

(** Modelled from the spec: class [BoundOutputs] (nemo/utils/bound_outputs,
    not part of the sources at hand) is an ordered mapping from output-port
    name to tensor; [keys()] and [values()] follow insertion order and
    [len] is the number of bindings. *)
Abbreviation BoundOutputs := (list (string * nat)) (only parsing).
Definition keys (b : BoundOutputs) : list string := b.*1.
Definition values (b : BoundOutputs) : list nat := b.*2.

(** The fields assigned by [NeuralGraph.__init__]. *)
Record NeuralGraph := MkGraph {
  name : string;
  operation_mode : OperationMode;
  bound_input_ports : gmap string NeuralType;
  bound_input_tensors : gmap string (option nat);
  bound_input_modules : gmap string NeuralInterface;
  bound_outputs : BoundOutputs;
  modules : gmap string NeuralInterface;
  steps : list Step
}.

(** The graph as left by [__init__]. *)
Definition init_graph (mode : OperationMode) (nm : string) : NeuralGraph :=
  {| name := nm;
     operation_mode := mode;
     bound_input_ports := ∅;
     bound_input_tensors := ∅;
     bound_input_modules := ∅;
     bound_outputs := [];
     modules := ∅;
     steps := [] |}.

Global Instance NeuralGraph_inhabited : Inhabited NeuralGraph :=
  populate (init_graph both "").

Global Instance NmTensor_inhabited : Inhabited NmTensor :=
  populate {| ntype := MkNeuralType [] "";
              producer := MkInterface 0 "";
              producer_args := ∅;
              consumers := [] |}.

(** Modelled from the spec: the active-graph slot is kept by
    [NeuralGraphManager] (nemo/core, not part of the sources at hand) and
    reached through the property [AppState.active_graph]; reading returns the
    graph under construction or none, writing replaces it without
    validation. *)
Abbreviation ActiveGraphSlot := (option nat) (only parsing).

(** The part of the process state that graph construction reads and writes:
    the graph objects, the tensor objects, and the active-graph slot. *)
Record State := MkState {
  graphs : gmap nat NeuralGraph;
  tensors : gmap nat NmTensor;
  active_graph : ActiveGraphSlot
}.

(** What a keyword argument of [__call__] may hold. *)
Inductive Arg :=
  | ArgGraph (g : nat)
  | ArgTensor (t : nat).

(** The exceptions raised on the paths modelled here. *)
Inductive Exception :=
  | TypeError (msg : string)
  | AttributeError
  | KeyError (key : string)
  | ValueError
  | NeuralPortNameMismatchError (input_port_name : string)
  | NeuralPortNmTensorMismatchError
      (class_name : string) (input_port_name : string)
      (port_definition : NeuralType) (input_object : NeuralType)
      (type_comatibility : NeuralTypeComparisonResult).

Inductive Outcome (A : Type) :=
  | Returned (a : A)
  | Raised (e : Exception).
Arguments Returned {A} a.
Arguments Raised {A} e.

(** The value of a graph invocation: the single bound tensor, or a named
    tuple of class [NeuralGraphOutput] with its fields in order. *)
Inductive CallResult :=
  | SingleTensor (t : nat)
  | NamedTuple (typename : string) (fields : list (string * nat)).

(** ** Graph operations *)

(** [record_step]: line 269 stores the module under its name, line 272
    appends the step. *)
Definition record_step (g : NeuralGraph) (module : NeuralInterface)
    (inputs : list (string * nat)) : NeuralGraph :=
  {| name := name g;
     operation_mode := operation_mode g;
     bound_input_ports := bound_input_ports g;
     bound_input_tensors := bound_input_tensors g;
     bound_input_modules := bound_input_modules g;
     bound_outputs := bound_outputs g;
     modules := <[ni_name module := module]> (modules g);
     steps := steps g ++ [(module, inputs)] |}.

(** [bind_input]: the three assignments of lines 277, 280 and 282. *)
Definition bind_input (g : NeuralGraph) (port_name : string)
    (port_definition : NeuralType) (bound_module : NeuralInterface)
    : NeuralGraph :=
  {| name := name g;
     operation_mode := operation_mode g;
     bound_input_ports := <[port_name := port_definition]> (bound_input_ports g);
     bound_input_tensors := <[port_name := None]> (bound_input_tensors g);
     bound_input_modules := <[port_name := bound_module]> (bound_input_modules g);
     bound_outputs := bound_outputs g;
     modules := modules g;
     steps := steps g |}.

(** [__getitem__] and [__len__]. *)
Definition getitem (g : NeuralGraph) (key : string) : Outcome NeuralInterface :=
  match modules g !! key with
  | Some m => Returned m
  | None => Raised (KeyError key)
  end.

Definition len (g : NeuralGraph) : nat := size (modules g).

(** Store updates. *)
Definition set_graph (gid : nat) (g : NeuralGraph) (st : State) : State :=
  {| graphs := <[gid := g]> (graphs st);
     tensors := tensors st;
     active_graph := active_graph st |}.

Definition set_tensor (tid : nat) (t : NmTensor) (st : State) : State :=
  {| graphs := graphs st;
     tensors := <[tid := t]> (tensors st);
     active_graph := active_graph st |}.

Definition set_active_graph (slot : ActiveGraphSlot) (st : State) : State :=
  {| graphs := graphs st;
     tensors := tensors st;
     active_graph := slot |}.

Definition graph_of (st : State) (gid : nat) : NeuralGraph := graphs st !!! gid.
Definition tensor_of (st : State) (tid : nat) : NmTensor := tensors st !!! tid.

(** The graph object seen as a [NeuralInterface] ([self] at line 118). *)
Definition graph_ref (st : State) (gid : nat) : NeuralInterface :=
  {| ni_id := gid; ni_name := name (graph_of st gid) |}.

(** [__enter__] and [activate] (lines 213 and 226); [__exit__] and
    [deactivate] (lines 220 and 232). *)
Definition enter (self : nat) (st : State) : State :=
  set_active_graph (Some self) st.
Definition activate (self : nat) (st : State) : State :=
  set_active_graph (Some self) st.
Definition exit (self : nat) (st : State) : State :=
  set_active_graph None st.
Definition deactivate (self : nat) (st : State) : State :=
  set_active_graph None st.

(** ** Invocation of a graph: [NeuralGraph.__call__] *)

(** Lines 81-91: the four guarded pairs of operation modes. *)
Definition check_modes (inner_mode outer_mode : OperationMode) : Outcome unit :=
  if decide (inner_mode = inference ∧ outer_mode = training) then
    Raised (TypeError "Cannot nest 'inference' graph into 'training'")
  else if decide (inner_mode = training ∧ outer_mode = inference) then
    Raised (TypeError "Cannot nest 'training' graph into 'inference'")
  else if decide (inner_mode = training ∧ outer_mode = both) then
    Raised (TypeError "Cannot nest 'training' graph into 'both'")
  else if decide (inner_mode = inference ∧ outer_mode = both) then
    Raised (TypeError "Cannot nest 'inference' graph into 'both'")
  else Returned ().

(** Lines 100-101.  The [for] statement walks the list object [self._steps]
    by position and looks at its current length before every iteration, while
    [record_step] appends to the list of the active graph.  The walk is
    therefore indexed and reads the store afresh at each turn; [fuel] bounds
    the number of iterations and [None] means it was exhausted. *)
Fixpoint replay (fuel : nat) (self outer : nat) (i : nat) (st : State)
    : option State :=
  match fuel with
  | 0 => None
  | S fuel' =>
      match steps (graph_of st self) !! i with
      | None => Some st
      | Some (module, inputs) =>
          replay fuel' self outer (S i)
            (set_graph outer (record_step (graph_of st outer) module inputs) st)
      end
  end.

(** Modelled from the spec: [NmTensor.add_consumer] is declared outside the
    sources at hand; the consumers of a tensor are an append-only sequence of
    (module, port name) pairs in invocation order. *)
Definition add_consumer (t : NmTensor) (consumer : NeuralInterface)
    (port_name : string) : NmTensor :=
  {| ntype := ntype t;
     producer := producer t;
     producer_args := producer_args t;
     consumers := consumers t ++ [(consumer, port_name)] |}.

(** Line 156: [output_tensor.producer_args[port_name] = input_object]. *)
Definition set_producer_arg (t : NmTensor) (port_name : string)
    (input_object : nat) : NmTensor :=
  {| ntype := ntype t;
     producer := producer t;
     producer_args := <[port_name := input_object]> (producer_args t);
     consumers := consumers t |}.

(** Lines 152-156: one turn of the loop over the bound output tensors. *)
Definition update_output (producer_ : NeuralInterface) (port_name : string)
    (input_object : nat) (st : State) (output_tensor : nat) : State :=
  if decide (ni_name (producer (tensor_of st output_tensor)) = ni_name producer_)
  then set_tensor output_tensor
         (set_producer_arg (tensor_of st output_tensor) port_name input_object) st
  else st.

Definition update_outputs (producer_ : NeuralInterface) (port_name : string)
    (input_object : nat) (outs : list nat) (st : State) : State :=
  foldl (update_output producer_ port_name input_object) st outs.

Section Call.

(** [NeuralType.compare] is declared in nemo/core/neural_types; the graph
    only looks at its verdict. *)
Variable compare : NeuralType → NeuralType → NeuralTypeComparisonResult.

(** [collections.namedtuple] rejects field names that are not identifiers,
    are keywords, start with an underscore or repeat; the test belongs to
    the Python library and is taken as given. *)
Variable valid_field_names : list string → bool.

(** Lines 125-128. *)
Definition accepted (type_comatibility : NeuralTypeComparisonResult) : bool :=
  negb (bool_decide (type_comatibility ≠ SAME ∧ type_comatibility ≠ GREATER)).

(** Lines 107-156: the body of the loop over [kwargs.items()]. *)
Definition bind_kwarg (self : nat) (kw : string * Arg) (st : State)
    : Outcome unit * State :=
  let '(input_port_name, input_object) := kw in
  match bound_input_ports (graph_of st self) !! input_port_name with
  | None => (Raised (NeuralPortNameMismatchError input_port_name), st)
  | Some port_definition =>
      match input_object with
      | ArgGraph h =>
          (Returned (),
           set_graph h
             (bind_input (graph_of st h) input_port_name port_definition
                (graph_ref st self)) st)
      | ArgTensor t =>
          let type_comatibility :=
            compare port_definition (ntype (tensor_of st t)) in
          if accepted type_comatibility then
            match bound_input_modules (graph_of st self) !! input_port_name with
            | None => (Raised (KeyError input_port_name), st)
            | Some consumer =>
                let st1 :=
                  set_tensor t
                    (add_consumer (tensor_of st t) consumer input_port_name) st in
                (Returned (),
                 update_outputs consumer input_port_name t
                   (values (bound_outputs (graph_of st1 self))) st1)
            end
          else
            (Raised (NeuralPortNmTensorMismatchError "NeuralGraph"
                       input_port_name port_definition
                       (ntype (tensor_of st t)) type_comatibility), st)
      end
  end.

(** The loop itself: it stops at the first exception. *)
Fixpoint bind_kwargs (self : nat) (kwargs : list (string * Arg)) (st : State)
    : Outcome unit * State :=
  match kwargs with
  | [] => (Returned (), st)
  | kw :: rest =>
      match bind_kwarg self kw st with
      | (Returned _, st') => bind_kwargs self rest st'
      | (Raised e, st') => (Raised e, st')
      end
  end.

(** Lines 161-173: with exactly one bound output its tensor is returned;
    otherwise a named tuple type is made from the keys and filled with the
    values. *)
Definition make_results (g : NeuralGraph) : Outcome CallResult :=
  match values (bound_outputs g) with
  | [t] => Returned (SingleTensor t)
  | _ =>
      if valid_field_names (keys (bound_outputs g)) then
        Returned (NamedTuple "NeuralGraphOutput" (bound_outputs g))
      else Raised ValueError
  end.

(** [__call__].  [None] is returned only when [fuel] does not suffice for the
    loop of lines 100-101. *)
Definition call (fuel : nat) (self : nat) (kwargs : list (string * Arg))
    (st : State) : option (Outcome CallResult * State) :=
  match active_graph st with
  | None => Some (Raised AttributeError, st)
  | Some outer =>
      match check_modes (operation_mode (graph_of st self))
                        (operation_mode (graph_of st outer)) with
      | Raised e => Some (Raised e, st)
      | Returned _ =>
          match replay fuel self outer 0 st with
          | None => None
          | Some st1 =>
              match bind_kwargs self kwargs st1 with
              | (Raised e, st2) => Some (Raised e, st2)
              | (Returned _, st2) =>
                  Some (make_results (graph_of st2 self), st2)
              end
          end
      end
  end.

End Call.

(** ** The singleton meta-class of nemo/utils/app_state.py *)

Module Singleton.

(** The two devices named by the docstring of [AppState.__init__]. *)
Inductive DeviceType := GPU | CPU.

(** An object made by the class: its identity, its class and the device
    chosen by [__init__] (lines 62-65). *)
Record Instance := MkInstance {
  inst_id : nat;
  inst_class : string;
  inst_device : DeviceType
}.

Global Instance Instance_inhabited : Inhabited Instance :=
  populate (MkInstance 0 "" GPU).

(** [Singleton.__instances], one entry per class, and the next free object
    identity of the process. *)
Record Runtime := MkRuntime {
  instances : gmap string Instance;
  next_object : nat
}.

Definition empty_runtime : Runtime :=
  {| instances := ∅; next_object := 0 |}.

(** Line 42, the call of the parent meta-class: a new object of the
    class, initialised by [__init__]. *)
Definition construct (cls : string) (device : option DeviceType)
    (rt : Runtime) : Instance * Runtime :=
  ({| inst_id := next_object rt;
      inst_class := cls;
      inst_device := default GPU device |},
   {| instances := instances rt; next_object := S (next_object rt) |}).

(** [Singleton.__call__], lines 36-44, run by one thread: the test, the
    test again inside the critical section, the creation and the final
    lookup. *)
Definition call (cls : string) (device : option DeviceType) (rt : Runtime)
    : Instance * Runtime :=
  let rt' :=
    if decide (instances rt !! cls = None) then
      if decide (instances rt !! cls = None) then
        let '(obj, rt1) := construct cls device rt in
        {| instances := <[cls := obj]> (instances rt1);
           next_object := next_object rt1 |}
      else rt
    else rt in
  (instances rt' !!! cls, rt').

(** A sequence of calls, each with its class and its argument. *)
Fixpoint calls (cs : list (string * option DeviceType)) (rt : Runtime)
    : list Instance * Runtime :=
  match cs with
  | [] => ([], rt)
  | (cls, device) :: rest =>
      let '(obj, rt1) := call cls device rt in
      let '(objs, rt2) := calls rest rt1 in
      (obj :: objs, rt2)
  end.

End Singleton.

(** ** Predicates used in the statements *)

(** The pairs of modes refused by lines 81-91: the inner graph is in
    training or inference mode and the outer graph is in another mode. *)
Definition mode_conflict (inner_mode outer_mode : OperationMode) : bool :=
  match inner_mode, outer_mode with
  | inference, training => true
  | training, inference => true
  | training, both => true
  | inference, both => true
  | _, _ => false
  end.

(** Recording a list of steps one after the other. *)
Definition record_steps (g : NeuralGraph) (l : list Step) : NeuralGraph :=
  foldl (λ g' s, record_step g' s.1 s.2) g l.

(** Every recorded step refers to a module present in [modules]: the module
    of the step is the object that [modules] holds under its name. *)
Definition steps_in_modules (g : NeuralGraph) : Prop :=
  Forall (λ s, modules g !! ni_name s.1 = Some s.1) (steps g).

(** No step of the graph was recorded for another object that bears the name
    of [module]. *)
Definition name_unshared (g : NeuralGraph) (module : NeuralInterface) : Prop :=
  Forall (λ s, ni_name s.1 = ni_name module → s.1 = module) (steps g).

(** [modules] holds, under each name, the module of the last step recorded
    under that name, and nothing else: the state reached from [__init__] by
    calls of [record_step], the only writer of the two fields. *)
Definition modules_from_steps (g : NeuralGraph) : Prop :=
  modules g = modules (record_steps (init_graph (operation_mode g) (name g)) (steps g)).

(** Every declared input port has a bound module: [bind_input] is the only
    writer of the three tables and writes them together. *)
Definition ports_have_modules (g : NeuralGraph) : Prop :=
  dom (bound_input_ports g) ⊆ dom (bound_input_modules g).

(** No graph holds a tensor in [bound_input_tensors]. *)
Definition all_unset (st : State) : Prop :=
  map_Forall
    (λ _ g, map_Forall (λ _ v, v = None) (bound_input_tensors g)) (graphs st).

Section Accepts.

Variable compare : NeuralType → NeuralType → NeuralTypeComparisonResult.

(** The keyword argument passes the loop body of lines 107-156 without an
    exception: its name is a declared port and, for a tensor, the comparison
    is accepted and the port has a bound module. *)
Definition accepts (st : State) (self : nat) (kw : string * Arg) : bool :=
  match bound_input_ports (graph_of st self) !! kw.1 with
  | None => false
  | Some port_definition =>
      match kw.2 with
      | ArgGraph _ => true
      | ArgTensor t =>
          accepted (compare port_definition (ntype (tensor_of st t)))
          && bool_decide (is_Some (bound_input_modules (graph_of st self) !! kw.1))
      end
  end.

End Accepts.

(** ** Further predicates: lookups, counts and the bound tables *)

Global Instance Arg_eq_dec : EqDecision Arg.
Proof. solve_decision. Defined.

(** The names under which the steps were recorded, in order. *)
Definition step_names (l : list Step) : list string :=
  (λ s, ni_name s.1) <$> l.

(** The module of the last step recorded under the name [key], if any. *)
Definition last_named (key : string) (l : list Step) : option NeuralInterface :=
  fst <$> last (filter (λ s, ni_name s.1 = key) l).

(** The three tables written by [bind_input] have the same keys. *)
Definition tables_aligned (g : NeuralGraph) : Prop :=
  dom (bound_input_tensors g) = dom (bound_input_ports g)
  ∧ dom (bound_input_modules g) = dom (bound_input_ports g).

Definition all_aligned (st : State) : Prop :=
  map_Forall (λ _ g, tables_aligned g) (graphs st).

(** ** A worked configuration

    The objects of a small session, after the test modules of
    tests/unit/core: a data source, a trainable module [tm] with input port
    [x], and graphs in the three modes.  Graphs 2 (mode both) and 3 (mode
    training) have recorded one step of [tm], bound its input [x] and hold
    its output [y_pred] (tensor 8) as their only bound output; graph 6 is
    graph 2 with the tensor 7 bound as a second output; graphs 1, 4 and 5
    are fresh graphs in modes both, inference and training. *)

Global Instance NeuralType_eq_dec : EqDecision NeuralType.
Proof. solve_decision. Defined.

Definition ex_compare (a b : NeuralType) : NeuralTypeComparisonResult :=
  if decide (a = b) then SAME
  else if decide (axes a = axes b) then LESSER
  else INCOMPATIBLE.

Definition ex_valid_field_names (ks : list string) : bool :=
  bool_decide (NoDup ks ∧ "" ∉ ks).

Definition ex_type : NeuralType := MkNeuralType ["B"; "D"] "values".
Definition ex_other_type : NeuralType := MkNeuralType ["B"; "T"] "audio".

Definition ex_source : NeuralInterface := MkInterface 101 "source".
Definition ex_tm : NeuralInterface := MkInterface 102 "tm".

Definition ex_inner (mode : OperationMode) (nm : string)
    (outs : list (string * nat)) : NeuralGraph :=
  {| name := nm;
     operation_mode := mode;
     bound_input_ports := {[ "x" := ex_type ]};
     bound_input_tensors := {[ "x" := None ]};
     bound_input_modules := {[ "x" := ex_tm ]};
     bound_outputs := outs;
     modules := {[ "tm" := ex_tm ]};
     steps := [(ex_tm, [])] |}.

Definition ex_graphs : gmap nat NeuralGraph :=
  <[1 := init_graph both "outer"]>
  (<[2 := ex_inner both "inner" [("y_pred", 8)]]>
  (<[3 := ex_inner training "trainer" [("y_pred", 8)]]>
  (<[4 := init_graph inference "evaluation"]>
  (<[5 := init_graph training "training"]>
  (<[6 := ex_inner both "pair" [("y_pred", 8); ("x", 7)]]> ∅))))).

Definition ex_tensors : gmap nat NmTensor :=
  <[7 := MkTensor ex_type ex_source ∅ []]>
  (<[8 := MkTensor ex_type ex_tm ∅ []]>
  (<[9 := MkTensor ex_other_type ex_source ∅ []]> ∅)).

Definition ex_state (active : option nat) : State :=
  {| graphs := ex_graphs; tensors := ex_tensors; active_graph := active |}.

(** The state after graph 2 has been invoked with tensor 7 for its port [x]
    while graph 1 is active: graph 1 has received the step of graph 2,
    tensor 7 has [tm] as a consumer, and tensor 8, produced by [tm], has
    tensor 7 as its argument [x]. *)
Definition ex_state_after : State :=
  {| graphs := <[1 := record_step (init_graph both "outer") ex_tm []]> ex_graphs;
     tensors :=
       <[7 := MkTensor ex_type ex_source ∅ [(ex_tm, "x")]]>
       (<[8 := MkTensor ex_type ex_tm {[ "x" := 7 ]} []]> ex_tensors);
     active_graph := Some 1 |}.

(** What the loop over the keyword arguments leaves in place when it goes
    from [st] to [st'] having looked at the arguments named [names]. *)
Record frame (self : nat) (names : list string) (st st' : State) : Prop := {
  fr_active : active_graph st' = active_graph st;
  fr_ports :
    bound_input_ports (graph_of st' self) = bound_input_ports (graph_of st self);
  fr_bound_some : ∀ p,
    is_Some (bound_input_modules (graph_of st self) !! p) →
    is_Some (bound_input_modules (graph_of st' self) !! p);
  fr_bound_other : ∀ p, p ∉ names →
    bound_input_modules (graph_of st' self) !! p
    = bound_input_modules (graph_of st self) !! p;
  fr_steps : ∀ g, steps (graph_of st' g) = steps (graph_of st g);
  fr_modules : ∀ g, modules (graph_of st' g) = modules (graph_of st g);
  fr_outputs : ∀ g, bound_outputs (graph_of st' g) = bound_outputs (graph_of st g);
  fr_mode : ∀ g, operation_mode (graph_of st' g) = operation_mode (graph_of st g);
  fr_name : ∀ g, name (graph_of st' g) = name (graph_of st g);
  fr_unset : ∀ g p v,
    bound_input_tensors (graph_of st' g) !! p = Some v →
    v = None ∨ bound_input_tensors (graph_of st g) !! p = Some v;
  fr_unset_keep : ∀ g p,
    bound_input_tensors (graph_of st g) !! p = Some None →
    bound_input_tensors (graph_of st' g) !! p = Some None;
  fr_ntype : ∀ t, ntype (tensor_of st' t) = ntype (tensor_of st t);
  fr_producer : ∀ t, producer (tensor_of st' t) = producer (tensor_of st t);
  fr_consumers : ∀ t,
    consumers (tensor_of st t) `prefix_of` consumers (tensor_of st' t);
  fr_args_other : ∀ t p, p ∉ names →
    producer_args (tensor_of st' t) !! p = producer_args (tensor_of st t) !! p
}.

(** Closed decidable statements are settled by evaluation. *)
Ltac by_decision := refine (bool_decide_unpack _ _); vm_compute; exact I.

(** ** Facts about the store *)

Lemma graph_of_set_graph_eq gid g st : graph_of (set_graph gid g st) gid = g.
Proof. unfold graph_of, set_graph; simpl. apply lookup_total_insert_eq. Qed.

Lemma graph_of_set_graph_ne gid gid' g st :
  gid ≠ gid' → graph_of (set_graph gid g st) gid' = graph_of st gid'.
Proof. intros. unfold graph_of, set_graph; simpl. by apply lookup_total_insert_ne. Qed.

Lemma graph_of_set_tensor tid t st gid :
  graph_of (set_tensor tid t st) gid = graph_of st gid.
Proof. reflexivity. Qed.

Lemma tensor_of_set_graph gid g st tid :
  tensor_of (set_graph gid g st) tid = tensor_of st tid.
Proof. reflexivity. Qed.

Lemma tensor_of_set_tensor_eq tid t st : tensor_of (set_tensor tid t st) tid = t.
Proof. unfold tensor_of, set_tensor; simpl. apply lookup_total_insert_eq. Qed.

Lemma tensor_of_set_tensor_ne tid tid' t st :
  tid ≠ tid' → tensor_of (set_tensor tid t st) tid' = tensor_of st tid'.
Proof. intros. unfold tensor_of, set_tensor; simpl. by apply lookup_total_insert_ne. Qed.

(** ** Facts about [record_step] *)

Lemma record_steps_snoc g l s :
  record_steps g (l ++ [s]) = record_step (record_steps g l) s.1 s.2.
Proof. unfold record_steps. by rewrite foldl_snoc. Qed.

Lemma record_steps_cons g s l :
  record_steps g (s :: l) = record_steps (record_step g s.1 s.2) l.
Proof. reflexivity. Qed.

Lemma steps_record_steps g l : steps (record_steps g l) = steps g ++ l.
Proof.
  revert g. induction l as [|[m a] l IH]; intros g.
  - simpl. by rewrite app_nil_r.
  - rewrite record_steps_cons, IH. simpl. by rewrite <- app_assoc.
Qed.

Lemma record_steps_fields g l :
  name (record_steps g l) = name g
  ∧ operation_mode (record_steps g l) = operation_mode g
  ∧ bound_input_ports (record_steps g l) = bound_input_ports g
  ∧ bound_input_tensors (record_steps g l) = bound_input_tensors g
  ∧ bound_input_modules (record_steps g l) = bound_input_modules g
  ∧ bound_outputs (record_steps g l) = bound_outputs g.
Proof.
  revert g. induction l as [|s l IH]; intros g; [done|].
  rewrite record_steps_cons. destruct (IH (record_step g s.1 s.2)) as (?&?&?&?&?&?).
  by repeat split.
Qed.

(** The modules after a run of recordings depend monotonically on the modules
    before it. *)
Lemma modules_record_steps_mono g g' l :
  modules g ⊆ modules g' →
  modules (record_steps g l) ⊆ modules (record_steps g' l).
Proof.
  revert g g'. induction l as [|s l IH]; intros g g' Hsub; [done|].
  rewrite !record_steps_cons. apply IH. simpl. by apply insert_mono.
Qed.

Lemma init_graph_steps_in_modules mode nm : steps_in_modules (init_graph mode nm).
Proof. constructor. Qed.

Lemma init_graph_ports_have_modules mode nm :
  ports_have_modules (init_graph mode nm).
Proof. done. Qed.

Lemma bind_input_ports_have_modules g p d m :
  ports_have_modules g → ports_have_modules (bind_input g p d m).
Proof.
  unfold ports_have_modules. simpl. rewrite !dom_insert_L.
  apply union_mono_l.
Qed.

Lemma record_step_ports_have_modules g m a :
  ports_have_modules g → ports_have_modules (record_step g m a).
Proof. done. Qed.

Lemma all_unset_graph_of st :
  all_unset st
  ↔ ∀ gid p v, bound_input_tensors (graph_of st gid) !! p = Some v → v = None.
Proof.
  unfold all_unset, graph_of. split.
  - intros Hinv gid p v Hv. rewrite lookup_total_alt in Hv.
    destruct (graphs st !! gid) as [g|] eqn:Hg; simpl in Hv; [|done].
    by apply (Hinv gid g Hg p v).
  - intros Hinv gid g Hg p v Hv. apply (Hinv gid p v).
    by rewrite (lookup_total_correct _ _ _ Hg).
Qed.

Lemma init_graph_modules_from_steps mode nm : modules_from_steps (init_graph mode nm).
Proof. reflexivity. Qed.

Lemma record_step_modules_from_steps g m a :
  modules_from_steps g → modules_from_steps (record_step g m a).
Proof.
  unfold modules_from_steps. intros Hinv. simpl.
  rewrite record_steps_snoc. simpl. by rewrite <- Hinv.
Qed.

(** With names that identify modules, the module of every recorded step is
    the one stored under its name. *)
Lemma record_step_stored_module g m a :
  (∀ s, s ∈ steps g → ni_name s.1 = ni_name m → s.1 = m) →
  (∀ s, s ∈ steps g → modules g !! ni_name s.1 = Some s.1) →
  ∀ s, s ∈ steps (record_step g m a) →
       modules (record_step g m a) !! ni_name s.1 = Some s.1.
Proof.
  intros Huniq Hinv s Hin. simpl in *.
  apply elem_of_app in Hin as [Hin|Hin].
  - destruct (decide (ni_name m = ni_name s.1)) as [Heq|Hne].
    + rewrite Heq, lookup_insert_eq. f_equal. symmetry. by apply Huniq.
    + rewrite lookup_insert_ne by done. by apply Hinv.
  - apply list_elem_of_singleton in Hin. subst s. simpl. by rewrite lookup_insert_eq.
Qed.

(** [record_step] keeps every step in [modules] exactly when the name of the
    recorded module is not shared with another recorded object: the
    assignment of line 269 replaces whatever was stored under the name. *)
Lemma record_step_steps_in_modules_iff g m a :
  steps_in_modules g →
  steps_in_modules (record_step g m a) ↔ name_unshared g m.
Proof.
  unfold steps_in_modules, name_unshared. rewrite !Forall_forall.
  intros Hinv. split.
  - intros Hafter s Hin Hname.
    assert (Hs : s ∈ steps (record_step g m a)).
    { simpl. apply elem_of_app. by left. }
    specialize (Hafter s Hs). simpl in Hafter.
    rewrite Hname, lookup_insert_eq in Hafter. by simplify_eq.
  - intros Huniq. by apply record_step_stored_module.
Qed.

(** The same for a run of recordings, when names identify the modules of
    the steps already held and of the steps added. *)
Lemma record_steps_steps_in_modules g l :
  steps_in_modules g →
  (∀ s s', s ∈ steps g ++ l → s' ∈ steps g ++ l →
           ni_name s.1 = ni_name s'.1 → s.1 = s'.1) →
  steps_in_modules (record_steps g l).
Proof.
  intros Hinv. induction l as [|x l IH] using rev_ind; intros Huniq; [done|].
  rewrite record_steps_snoc.
  apply record_step_steps_in_modules_iff.
  - apply IH. intros s s' Hs Hs'. apply Huniq; rewrite app_assoc;
      apply elem_of_app; by left.
  - unfold name_unshared. rewrite Forall_forall, steps_record_steps.
    intros s Hs Hname. apply Huniq; [| |done].
    + rewrite app_assoc. apply elem_of_app. by left.
    + rewrite app_assoc. apply elem_of_app. right. apply list_elem_of_here.
Qed.

(** ** Facts about the replay loop *)

(** Into another graph the loop ends after one turn per recorded step and
    leaves every other object as it was. *)
Lemma replay_other fuel self outer i st :
  self ≠ outer →
  length (steps (graph_of st self)) - i < fuel →
  ∃ st',
    replay fuel self outer i st = Some st'
    ∧ graph_of st' outer
      = record_steps (graph_of st outer) (drop i (steps (graph_of st self)))
    ∧ (∀ g, g ≠ outer → graph_of st' g = graph_of st g)
    ∧ tensors st' = tensors st
    ∧ active_graph st' = active_graph st.
Proof.
  intros Hne. revert i st.
  induction fuel as [|fuel IH]; intros i st Hlen.
  - lia.
  - simpl. destruct (steps (graph_of st self) !! i) as [[m a]|] eqn:Hi.
    + set (st1 := set_graph outer (record_step (graph_of st outer) m a) st).
      assert (Hself : graph_of st1 self = graph_of st self).
      { unfold st1. by rewrite graph_of_set_graph_ne. }
      destruct (IH (S i) st1) as (st' & Hrun & Hout & Hoth & Hten & Hact).
      { rewrite Hself. pose proof (lookup_lt_Some _ _ _ Hi). lia. }
      exists st'. split; [done|]. split; [|split; [|split]].
      * rewrite Hout, Hself. unfold st1. rewrite graph_of_set_graph_eq.
        by rewrite (drop_S _ _ _ Hi).
      * intros g Hg. rewrite Hoth by done. unfold st1.
        by rewrite graph_of_set_graph_ne.
      * by rewrite Hten.
      * by rewrite Hact.
    + exists st. apply lookup_ge_None in Hi.
      rewrite drop_ge by done. done.
Qed.

(** Into the graph itself the loop never ends once there is a step to copy:
    every turn appends the step it has just read. *)
Lemma replay_self_diverges fuel self i st :
  i < length (steps (graph_of st self)) →
  replay fuel self self i st = None.
Proof.
  revert i st. induction fuel as [|fuel IH]; intros i st Hlen; [done|].
  simpl. destruct (lookup_lt_is_Some_2 _ _ Hlen) as [[m a] Hi]. rewrite Hi.
  apply IH. rewrite graph_of_set_graph_eq. simpl. rewrite length_app. simpl. lia.
Qed.

(** The loop only records steps: whatever graph it writes to keeps its other
    fields, and the tensors and the active graph stay. *)
Lemma replay_fields fuel self outer i st st' :
  replay fuel self outer i st = Some st' →
  (∀ g, name (graph_of st' g) = name (graph_of st g)
        ∧ operation_mode (graph_of st' g) = operation_mode (graph_of st g)
        ∧ bound_input_ports (graph_of st' g) = bound_input_ports (graph_of st g)
        ∧ bound_input_tensors (graph_of st' g) = bound_input_tensors (graph_of st g)
        ∧ bound_input_modules (graph_of st' g) = bound_input_modules (graph_of st g)
        ∧ bound_outputs (graph_of st' g) = bound_outputs (graph_of st g))
  ∧ tensors st' = tensors st
  ∧ active_graph st' = active_graph st.
Proof.
  revert i st. induction fuel as [|fuel IH]; intros i st Hrun; [done|].
  simpl in Hrun. destruct (steps (graph_of st self) !! i) as [[m a]|].
  - apply IH in Hrun as (Hg & Hten & Hact). split; [|by split].
    intros g. destruct (Hg g) as (-> & -> & -> & -> & -> & ->).
    destruct (decide (outer = g)) as [->|Hne].
    + by rewrite graph_of_set_graph_eq.
    + by rewrite graph_of_set_graph_ne.
  - by inversion Hrun.
Qed.

(** ** Facts about the loop over the bound outputs *)

Lemma update_outputs_snoc m p t outs o st :
  update_outputs m p t (outs ++ [o]) st
  = update_output m p t (update_outputs m p t outs st) o.
Proof. unfold update_outputs. by rewrite foldl_snoc. Qed.

Lemma update_output_graphs m p t st o :
  graphs (update_output m p t st o) = graphs st
  ∧ active_graph (update_output m p t st o) = active_graph st.
Proof. unfold update_output. by case_decide. Qed.

Lemma update_outputs_graphs m p t outs st :
  graphs (update_outputs m p t outs st) = graphs st
  ∧ active_graph (update_outputs m p t outs st) = active_graph st.
Proof.
  induction outs as [|o outs IH] using rev_ind; [done|].
  rewrite update_outputs_snoc.
  destruct (update_output_graphs m p t (update_outputs m p t outs st) o) as [-> ->].
  done.
Qed.

(** The loop rewrites the argument [p] of exactly the listed tensors whose
    producer bears the name of [m]. *)
Lemma update_outputs_tensor m p t outs st x :
  tensor_of (update_outputs m p t outs st) x
  = if decide (x ∈ outs ∧ ni_name (producer (tensor_of st x)) = ni_name m)
    then set_producer_arg (tensor_of st x) p t
    else tensor_of st x.
Proof.
  induction outs as [|o outs IH] using rev_ind.
  - rewrite decide_False; [done|]. intros [H _]. by apply elem_of_nil in H.
  - rewrite update_outputs_snoc. unfold update_output at 1.
    set (st1 := update_outputs m p t outs st) in *.
    assert (Hprod : ∀ y, producer (tensor_of st1 y) = producer (tensor_of st y)).
    { intros y. unfold st1. clear IH.
      induction outs as [|o' outs IH'] using rev_ind; [done|].
      rewrite update_outputs_snoc. unfold update_output. case_decide; [|done].
      destruct (decide (o' = y)) as [->|Hne].
      - rewrite tensor_of_set_tensor_eq. simpl. apply IH'.
      - rewrite tensor_of_set_tensor_ne by done. apply IH'. }
    rewrite Hprod.
    destruct (decide (ni_name (producer (tensor_of st o)) = ni_name m)) as [Ho|Ho].
    + destruct (decide (o = x)) as [->|Hne].
      * rewrite tensor_of_set_tensor_eq, IH.
        rewrite (decide_True (P := x ∈ outs ++ [x] ∧ _)) by (split; [apply elem_of_app; right; apply list_elem_of_singleton; done|done]).
        case_decide; [|done].
        unfold set_producer_arg; simpl. by rewrite insert_insert_eq.
      * rewrite tensor_of_set_tensor_ne by done. rewrite IH.
        apply decide_ext. rewrite elem_of_app, list_elem_of_singleton.
        intuition congruence.
    + rewrite IH. apply decide_ext. split.
      * intros [Hin ?]. split; [|done]. apply elem_of_app. by left.
      * intros [Hin ?]. split; [|done].
        apply elem_of_app in Hin as [?|Hin]; [done|].
        apply list_elem_of_singleton in Hin. congruence.
Qed.

(** ** Facts about the loop over the keyword arguments *)

Lemma frame_refl self names st : frame self names st st.
Proof. split; auto. Qed.

Lemma frame_trans self names1 names2 st1 st2 st3 :
  frame self names1 st1 st2 → frame self names2 st2 st3 →
  frame self (names1 ++ names2) st1 st3.
Proof.
  intros H1 H2. split.
  - by rewrite (fr_active _ _ _ _ H2), (fr_active _ _ _ _ H1).
  - by rewrite (fr_ports _ _ _ _ H2), (fr_ports _ _ _ _ H1).
  - intros p Hp. by apply (fr_bound_some _ _ _ _ H2), (fr_bound_some _ _ _ _ H1).
  - intros p [Hp1 Hp2]%not_elem_of_app.
    by rewrite (fr_bound_other _ _ _ _ H2), (fr_bound_other _ _ _ _ H1).
  - intros g. by rewrite (fr_steps _ _ _ _ H2), (fr_steps _ _ _ _ H1).
  - intros g. by rewrite (fr_modules _ _ _ _ H2), (fr_modules _ _ _ _ H1).
  - intros g. by rewrite (fr_outputs _ _ _ _ H2), (fr_outputs _ _ _ _ H1).
  - intros g. by rewrite (fr_mode _ _ _ _ H2), (fr_mode _ _ _ _ H1).
  - intros g. by rewrite (fr_name _ _ _ _ H2), (fr_name _ _ _ _ H1).
  - intros g p v Hv.
    destruct (fr_unset _ _ _ _ H2 _ _ _ Hv) as [?|Hv']; [by left|].
    by apply (fr_unset _ _ _ _ H1).
  - intros g p Hp. by apply (fr_unset_keep _ _ _ _ H2), (fr_unset_keep _ _ _ _ H1).
  - intros t. by rewrite (fr_ntype _ _ _ _ H2), (fr_ntype _ _ _ _ H1).
  - intros t. by rewrite (fr_producer _ _ _ _ H2), (fr_producer _ _ _ _ H1).
  - intros t. etrans; [apply (fr_consumers _ _ _ _ H1)|apply (fr_consumers _ _ _ _ H2)].
  - intros t p [Hp1 Hp2]%not_elem_of_app.
    by rewrite (fr_args_other _ _ _ _ H2), (fr_args_other _ _ _ _ H1).
Qed.

Lemma frame_weaken self names names' st st' :
  names ⊆ names' → frame self names st st' → frame self names' st st'.
Proof.
  intros Hsub []. split; auto.
Qed.

Lemma graph_of_same_graphs st st' g :
  graphs st' = graphs st → graph_of st' g = graph_of st g.
Proof. unfold graph_of. by intros ->. Qed.

Section CallFacts.

Variable compare : NeuralType → NeuralType → NeuralTypeComparisonResult.
Variable valid_field_names : list string → bool.

Lemma accepted_spec c : accepted c = true ↔ c = SAME ∨ c = GREATER.
Proof. destruct c; unfold accepted; simpl; split; intros H; try done; auto;
  destruct H; done. Qed.

Lemma bind_kwarg_raised_state self kw st e st' :
  bind_kwarg compare self kw st = (Raised e, st') → st' = st.
Proof.
  destruct kw as [p [h|t]]; unfold bind_kwarg; intros H;
    repeat (case_match; simplify_eq); done.
Qed.

(** A bound graph: only the three tables of [h] are written. *)
Lemma frame_bind_graph self p d h st :
  bound_input_ports (graph_of st self) !! p = Some d →
  frame self [p] st
    (set_graph h (bind_input (graph_of st h) p d (graph_ref st self)) st).
Proof.
  intros Hp.
  assert (Hg : ∀ g, g ≠ h →
    graph_of (set_graph h (bind_input (graph_of st h) p d (graph_ref st self)) st) g
    = graph_of st g).
  { intros g Hne. by rewrite graph_of_set_graph_ne. }
  split; try done.
  - destruct (decide (h = self)) as [->|Hne].
    + rewrite graph_of_set_graph_eq. simpl. by apply insert_id.
    + by rewrite graph_of_set_graph_ne.
  - intros q Hq. destruct (decide (h = self)) as [->|Hne].
    + rewrite graph_of_set_graph_eq. simpl.
      destruct (decide (p = q)) as [->|Hpq].
      * rewrite lookup_insert_eq. eauto.
      * by rewrite lookup_insert_ne.
    + by rewrite graph_of_set_graph_ne.
  - intros q Hq. rewrite list_elem_of_singleton in Hq.
    destruct (decide (h = self)) as [->|Hne].
    + rewrite graph_of_set_graph_eq. simpl. by rewrite lookup_insert_ne.
    + by rewrite graph_of_set_graph_ne.
  - intros g. destruct (decide (h = g)) as [->|Hne];
      [by rewrite graph_of_set_graph_eq|by rewrite Hg].
  - intros g. destruct (decide (h = g)) as [->|Hne];
      [by rewrite graph_of_set_graph_eq|by rewrite Hg].
  - intros g. destruct (decide (h = g)) as [->|Hne];
      [by rewrite graph_of_set_graph_eq|by rewrite Hg].
  - intros g. destruct (decide (h = g)) as [->|Hne];
      [by rewrite graph_of_set_graph_eq|by rewrite Hg].
  - intros g. destruct (decide (h = g)) as [->|Hne];
      [by rewrite graph_of_set_graph_eq|by rewrite Hg].
  - intros g q v. destruct (decide (h = g)) as [->|Hne].
    + rewrite graph_of_set_graph_eq. simpl.
      destruct (decide (p = q)) as [->|Hpq].
      * rewrite lookup_insert_eq. intros [= <-]. by left.
      * rewrite lookup_insert_ne by done. by right.
    + rewrite Hg by done. by right.
  - intros g q Hq. destruct (decide (h = g)) as [->|Hne].
    + rewrite graph_of_set_graph_eq. simpl.
      destruct (decide (p = q)) as [->|Hpq].
      * by rewrite lookup_insert_eq.
      * by rewrite lookup_insert_ne.
    + by rewrite Hg.
Qed.

(** An accepted tensor: only tensors are written, and of them only the
    consumers of the tensor fed and the argument [p] of output tensors. *)
Lemma frame_bind_tensor self p t m st :
  frame self [p] st
    (update_outputs m p t (values (bound_outputs (graph_of st self)))
       (set_tensor t (add_consumer (tensor_of st t) m p) st)).
Proof.
  set (st1 := set_tensor t (add_consumer (tensor_of st t) m p) st).
  set (st2 := update_outputs m p t _ st1).
  assert (Hgraphs : graphs st2 = graphs st).
  { unfold st2. by destruct (update_outputs_graphs m p t
      (values (bound_outputs (graph_of st self))) st1) as [-> _]. }
  assert (Hg : ∀ g, graph_of st2 g = graph_of st g).
  { intros g. by apply graph_of_same_graphs. }
  assert (Ht1 : ∀ x, ntype (tensor_of st1 x) = ntype (tensor_of st x)
                   ∧ producer (tensor_of st1 x) = producer (tensor_of st x)
                   ∧ producer_args (tensor_of st1 x) = producer_args (tensor_of st x)
                   ∧ consumers (tensor_of st x) `prefix_of` consumers (tensor_of st1 x)).
  { intros x. unfold st1. destruct (decide (t = x)) as [->|Hne].
    - rewrite tensor_of_set_tensor_eq. simpl. repeat split. by apply prefix_app_r.
    - rewrite tensor_of_set_tensor_ne by done. done. }
  split; intros; rewrite ?Hg; try done; auto.
  - unfold st2. by destruct (update_outputs_graphs m p t
      (values (bound_outputs (graph_of st self))) st1) as [_ ->].
  - right. by rewrite <- Hg.
  - unfold st2. rewrite update_outputs_tensor. case_decide; simpl; apply Ht1.
  - unfold st2. rewrite update_outputs_tensor. case_decide; simpl; apply Ht1.
  - unfold st2. rewrite update_outputs_tensor. case_decide; simpl; apply Ht1.
  - unfold st2. rewrite update_outputs_tensor.
    destruct (Ht1 t0) as (_ & _ & Hargs & _).
    rewrite list_elem_of_singleton in H.
    case_decide; simpl; rewrite ?lookup_insert_ne by done; by rewrite Hargs.
Qed.

Lemma bind_kwarg_frame self kw st out st' :
  bind_kwarg compare self kw st = (out, st') → frame self [kw.1] st st'.
Proof.
  destruct kw as [p [h|t]]; unfold bind_kwarg; simpl; intros H.
  - destruct (bound_input_ports (graph_of st self) !! p) as [d|] eqn:Hp;
      simplify_eq; [|apply frame_refl].
    by apply frame_bind_graph.
  - repeat (case_match; simplify_eq); try apply frame_refl.
    match goal with
    | Hm : bound_input_modules _ !! p = Some ?m |- _ =>
        exact (frame_bind_tensor self p t m st)
    end.
Qed.

Lemma bind_kwargs_frame self kwargs st out st' :
  bind_kwargs compare self kwargs st = (out, st') → frame self kwargs.*1 st st'.
Proof.
  revert st. induction kwargs as [|kw kwargs IH]; intros st H; simpl in H.
  - simplify_eq. apply frame_refl.
  - destruct (bind_kwarg compare self kw st) as [[[]|e] st1] eqn:Hkw.
    + change ((kw :: kwargs).*1) with ([kw.1] ++ kwargs.*1).
      apply (frame_trans _ [kw.1] (kwargs.*1) _ st1).
      * by eapply bind_kwarg_frame.
      * by apply IH.
    + simplify_eq. eapply frame_weaken; [|by eapply bind_kwarg_frame].
      intros x Hx. apply list_elem_of_singleton in Hx as ->.
      simpl. apply elem_of_cons. by left.
Qed.

Lemma bind_kwargs_app self pre post st :
  bind_kwargs compare self (pre ++ post) st
  = match bind_kwargs compare self pre st with
    | (Returned _, st') => bind_kwargs compare self post st'
    | (Raised e, st') => (Raised e, st')
    end.
Proof.
  revert st. induction pre as [|kw pre IH]; intros st; simpl; [done|].
  destruct (bind_kwarg compare self kw st) as [[[]|e] st1]; [apply IH|done].
Qed.

(** [accepts] says exactly when the loop body returns. *)
Lemma bind_kwarg_accepts self kw st :
  accepts compare st self kw = true
  ↔ ∃ st', bind_kwarg compare self kw st = (Returned (), st').
Proof.
  destruct kw as [p [h|t]]; unfold bind_kwarg, accepts; simpl.
  - destruct (bound_input_ports (graph_of st self) !! p); split;
      try done; eauto. by intros [? ?].
  - destruct (bound_input_ports (graph_of st self) !! p) as [d|];
      [|split; [done|by intros [? ?]]].
    destruct (accepted (compare d (ntype (tensor_of st t)))); simpl;
      [|split; [done|by intros [? ?]]].
    destruct (bound_input_modules (graph_of st self) !! p) as [m|] eqn:Hm.
    + split; eauto.
    + split; [|by intros [? ?]]. intros H%bool_decide_eq_true.
      by destruct H.
Qed.

(** Acceptance is kept by the loop: the declared ports and the types of the
    tensors stay, and bound modules are never removed. *)
Lemma accepts_frame self names st st' kw :
  frame self names st st' →
  accepts compare st self kw = true → accepts compare st' self kw = true.
Proof.
  intros Hfr. unfold accepts. rewrite (fr_ports _ _ _ _ Hfr).
  destruct (bound_input_ports (graph_of st self) !! kw.1); [|done].
  destruct kw.2 as [h|t]; [done|].
  rewrite (fr_ntype _ _ _ _ Hfr). intros [Hc Hm%bool_decide_eq_true]%andb_true_iff.
  apply andb_true_iff. split; [done|]. apply bool_decide_eq_true.
  by apply (fr_bound_some _ _ _ _ Hfr).
Qed.

Lemma bind_kwargs_accepted self kwargs st :
  Forall (λ kw, accepts compare st self kw = true) kwargs →
  ∃ st', bind_kwargs compare self kwargs st = (Returned (), st').
Proof.
  revert st. induction kwargs as [|kw kwargs IH]; intros st Hall; simpl; [eauto|].
  apply Forall_cons in Hall as [Hkw Hall].
  apply bind_kwarg_accepts in Hkw as [st1 Hkw]. rewrite Hkw.
  apply IH. eapply Forall_impl; [done|].
  intros kw'. simpl. eapply accepts_frame. by eapply bind_kwarg_frame.
Qed.

Lemma bind_kwargs_raised self kwargs st e st' :
  bind_kwargs compare self kwargs st = (Raised e, st') →
  (∃ p, e = NeuralPortNameMismatchError p)
  ∨ (∃ c p d ty r, e = NeuralPortNmTensorMismatchError c p d ty r)
  ∨ (∃ p, e = KeyError p).
Proof.
  revert st. induction kwargs as [|kw kwargs IH]; intros st H; simpl in H; [done|].
  destruct (bind_kwarg compare self kw st) as [[[]|e'] st1] eqn:Hkw; [by eapply IH|].
  simplify_eq. destruct kw as [p [h|t]]; unfold bind_kwarg in Hkw;
    repeat (case_match; simplify_eq); eauto 10.
Qed.

End CallFacts.

(** ** Facts about [__call__] *)

Lemma check_modes_returned inner_mode outer_mode :
  check_modes inner_mode outer_mode = Returned ()
  ↔ mode_conflict inner_mode outer_mode = false.
Proof. by destruct inner_mode, outer_mode. Qed.

Lemma check_modes_raised inner_mode outer_mode :
  (∃ msg, check_modes inner_mode outer_mode = Raised (TypeError msg))
  ↔ mode_conflict inner_mode outer_mode = true.
Proof.
  destruct inner_mode, outer_mode; simpl; split; try done;
    try (by intros [? ?]); intros _; eexists; reflexivity.
Qed.

Lemma check_modes_only_type_error inner_mode outer_mode e :
  check_modes inner_mode outer_mode = Raised e → ∃ msg, e = TypeError msg.
Proof.
  destruct inner_mode, outer_mode; intros H; cbv in H; simplify_eq; eauto.
Qed.

(** The refused pairs are those where the inner mode is not [both] and
    differs from the outer mode. *)
Lemma mode_conflict_spec inner_mode outer_mode :
  mode_conflict inner_mode outer_mode = true
  ↔ inner_mode ≠ both ∧ inner_mode ≠ outer_mode.
Proof.
  destruct inner_mode, outer_mode; simpl; split; try done;
    intros [? ?]; done.
Qed.

Section Claims.

Variable compare : NeuralType → NeuralType → NeuralTypeComparisonResult.
Variable valid_field_names : list string → bool.

Lemma accepts_ext st st' self kw :
  graph_of st' self = graph_of st self → tensors st' = tensors st →
  accepts compare st' self kw = accepts compare st self kw.
Proof. unfold accepts, tensor_of. by intros -> ->. Qed.

Lemma make_results_raised g e :
  make_results valid_field_names g = Raised e → e = ValueError.
Proof. unfold make_results. intros H. repeat (case_match; simplify_eq); done. Qed.

(** A call that passes the mode test while another graph is active: the
    replay ends, and the outcome is that of the loop over the arguments
    followed by the construction of the result. *)
Lemma call_nested fuel self o kwargs st :
  active_graph st = Some o →
  self ≠ o →
  mode_conflict (operation_mode (graph_of st self))
                (operation_mode (graph_of st o)) = false →
  length (steps (graph_of st self)) < fuel →
  ∃ st1,
    replay fuel self o 0 st = Some st1
    ∧ graph_of st1 o = record_steps (graph_of st o) (steps (graph_of st self))
    ∧ (∀ g, g ≠ o → graph_of st1 g = graph_of st g)
    ∧ tensors st1 = tensors st
    ∧ active_graph st1 = active_graph st
    ∧ call compare valid_field_names fuel self kwargs st
      = Some (match bind_kwargs compare self kwargs st1 with
              | (Raised e, st2) => (Raised e, st2)
              | (Returned _, st2) =>
                  (make_results valid_field_names (graph_of st2 self), st2)
              end).
Proof.
  intros Hact Hne Hmode Hfuel.
  destruct (replay_other fuel self o 0 st Hne) as (st1 & Hrun & Ho & Hoth & Hten & Hact1);
    [lia|].
  exists st1. rewrite drop_0 in Ho. repeat split; try done.
  unfold call. rewrite Hact.
  apply check_modes_returned in Hmode. rewrite Hmode, Hrun.
  by destruct (bind_kwargs compare self kwargs st1) as [[[]|e] st2].
Qed.

(** Whatever the outcome, a call leaves the bound tables of every graph as
    the loop over the arguments left them. *)
Lemma call_inv fuel self kwargs st out st' :
  call compare valid_field_names fuel self kwargs st = Some (out, st') →
  ((∃ e, out = Raised e) ∧ st' = st)
  ∨ ∃ o st1, active_graph st = Some o
      ∧ replay fuel self o 0 st = Some st1
      ∧ frame self kwargs.*1 st1 st'
      ∧ ((∃ e, out = Raised e
               ∧ bind_kwargs compare self kwargs st1 = (Raised e, st'))
         ∨ (bind_kwargs compare self kwargs st1 = (Returned (), st')
            ∧ out = make_results valid_field_names (graph_of st' self))).
Proof.
  unfold call. intros H.
  destruct (active_graph st) as [o|]; [|left; simplify_eq; eauto].
  destruct (check_modes _ _); [|left; simplify_eq; eauto].
  destruct (replay fuel self o 0 st) as [st1|] eqn:Hrun; [|done].
  destruct (bind_kwargs compare self kwargs st1) as [[[]|e] st2] eqn:Hkw;
    simplify_eq; right; exists o, st1; repeat split; try done;
    try (by eapply bind_kwargs_frame); eauto.
Qed.

(** The loop body on an accepted tensor. *)
Lemma bind_kwarg_tensor self p t d m st :
  bound_input_ports (graph_of st self) !! p = Some d →
  bound_input_modules (graph_of st self) !! p = Some m →
  accepted (compare d (ntype (tensor_of st t))) = true →
  ∃ st',
    bind_kwarg compare self (p, ArgTensor t) st = (Returned (), st')
    ∧ consumers (tensor_of st' t) = consumers (tensor_of st t) ++ [(m, p)]
    ∧ (∀ ot, ot ∈ values (bound_outputs (graph_of st self)) →
             ni_name (producer (tensor_of st ot)) = ni_name m →
             producer_args (tensor_of st' ot) !! p = Some t)
    ∧ (∀ ot, ¬ (ot ∈ values (bound_outputs (graph_of st self))
                ∧ ni_name (producer (tensor_of st ot)) = ni_name m) →
             producer_args (tensor_of st' ot) = producer_args (tensor_of st ot)).
Proof.
  intros Hp Hm Hc. unfold bind_kwarg. rewrite Hp, Hc, Hm.
  eexists. split; [done|].
  set (st1 := set_tensor t (add_consumer (tensor_of st t) m p) st).
  assert (Hprod : ∀ x, producer (tensor_of st1 x) = producer (tensor_of st x)).
  { intros x. unfold st1. destruct (decide (t = x)) as [->|Hne].
    - by rewrite tensor_of_set_tensor_eq.
    - by rewrite tensor_of_set_tensor_ne. }
  assert (Hargs : ∀ x, producer_args (tensor_of st1 x) = producer_args (tensor_of st x)).
  { intros x. unfold st1. destruct (decide (t = x)) as [->|Hne].
    - by rewrite tensor_of_set_tensor_eq.
    - by rewrite tensor_of_set_tensor_ne. }
  change (graph_of st1 self) with (graph_of st self).
  split; [|split].
  - rewrite update_outputs_tensor.
    assert (consumers (tensor_of st1 t) = consumers (tensor_of st t) ++ [(m, p)]).
    { unfold st1. by rewrite tensor_of_set_tensor_eq. }
    by case_decide.
  - intros ot Hin Hname. rewrite update_outputs_tensor.
    rewrite decide_True by (by rewrite Hprod).
    simpl. by rewrite lookup_insert_eq.
  - intros ot Hnot. rewrite update_outputs_tensor.
    rewrite decide_False by (by rewrite Hprod). apply Hargs.
Qed.

(** ** The operation-mode test *)

(** C1 (as amended).  While an outer graph [o] is active, the invocation of
    [self] fails with the mode error ([TypeError]) if and only if the mode of
    [self] is training or inference and differs from the mode of [o]; a graph
    in mode [both] passes the test under every outer mode.  In particular a
    training graph in an inference graph fails, and [both] in [both] does not
    fail with the mode error. *)
Theorem nesting_mode_error fuel self o kwargs st :
  active_graph st = Some o →
  let inner_mode := operation_mode (graph_of st self) in
  let outer_mode := operation_mode (graph_of st o) in
  ((∃ msg st', call compare valid_field_names fuel self kwargs st
               = Some (Raised (TypeError msg), st'))
   ↔ (inner_mode ≠ both ∧ inner_mode ≠ outer_mode))
  ∧ (inner_mode = training → outer_mode = inference →
     call compare valid_field_names fuel self kwargs st
     = Some (Raised (TypeError "Cannot nest 'training' graph into 'inference'"), st))
  ∧ (inner_mode = both →
     ∀ msg st', call compare valid_field_names fuel self kwargs st
                ≠ Some (Raised (TypeError msg), st')).
Proof.
  intros Hact inner_mode outer_mode.
  assert (Hiff : (∃ msg st', call compare valid_field_names fuel self kwargs st
                             = Some (Raised (TypeError msg), st'))
                 ↔ mode_conflict inner_mode outer_mode = true).
  { split.
    - intros (msg & st' & Hcall). unfold call in Hcall. rewrite Hact in Hcall.
      fold inner_mode outer_mode in Hcall.
      destruct (check_modes inner_mode outer_mode) as [[]|e] eqn:Hchk.
      + destruct (replay fuel self o 0 st) as [st1|]; [|done].
        destruct (bind_kwargs compare self kwargs st1) as [[[]|e] st2] eqn:Hkw.
        * simplify_eq. match goal with H : make_results _ _ = _ |- _ =>
            apply make_results_raised in H; done end.
        * simplify_eq.
          apply bind_kwargs_raised in Hkw as [[? ?]|[(?&?&?&?&?&?)|[? ?]]]; done.
      + simplify_eq. apply check_modes_raised. eauto.
    - intros [msg Hmsg]%check_modes_raised. exists msg, st.
      unfold call. rewrite Hact. fold inner_mode outer_mode. by rewrite Hmsg. }
  split; [|split].
  - by rewrite Hiff, mode_conflict_spec.
  - intros Hi Ho. unfold call. rewrite Hact. fold inner_mode outer_mode.
    by rewrite Hi, Ho.
  - intros Hi msg st' Hcall.
    assert (Hc : mode_conflict inner_mode outer_mode = true) by (apply Hiff; eauto).
    rewrite Hi in Hc. by destruct outer_mode.
Qed.

(** ** Unknown keyword arguments *)

(** C2 (as amended).  When [self] is invoked while another graph is active
    and the mode test passes, and every keyword argument before the first
    undeclared name [k] is accepted, the call fails with the port-name error
    for [k], and the steps recorded in [self] are those from before the
    call. *)
Theorem unknown_keyword_fails fuel self o pre k a post st :
  active_graph st = Some o →
  self ≠ o →
  mode_conflict (operation_mode (graph_of st self))
                (operation_mode (graph_of st o)) = false →
  length (steps (graph_of st self)) < fuel →
  Forall (λ kw, accepts compare st self kw = true) pre →
  bound_input_ports (graph_of st self) !! k = None →
  ∃ st',
    call compare valid_field_names fuel self (pre ++ (k, a) :: post) st
    = Some (Raised (NeuralPortNameMismatchError k), st')
    ∧ steps (graph_of st' self) = steps (graph_of st self).
Proof.
  intros Hact Hne Hmode Hfuel Hpre Hk.
  destruct (call_nested fuel self o (pre ++ (k, a) :: post) st Hact Hne Hmode Hfuel)
    as (st1 & _ & _ & Hoth & Hten & _ & Hcall).
  assert (Hself : graph_of st1 self = graph_of st self) by by apply Hoth.
  destruct (bind_kwargs_accepted compare self pre st1) as [st2 Hrun].
  { eapply Forall_impl; [done|]. intros kw Hkw. simpl.
    by rewrite (accepts_ext st st1). }
  pose proof (bind_kwargs_frame _ _ _ _ _ _ Hrun) as Hfr.
  exists st2. rewrite Hcall, bind_kwargs_app, Hrun. simpl.
  rewrite (fr_ports _ _ _ _ Hfr), Hself, Hk. split; [done|].
  by rewrite (fr_steps _ _ _ _ Hfr), Hself.
Qed.

(** ** Binding a tensor to a bound input port *)

(** C3.  When the call takes up the keyword argument [p] holding tensor [t],
    [p] is a bound input port with module [m] and the comparison of the port
    with the tensor is SAME or GREATER, the call appends [(m, p)] to the
    consumers of [t], and in every bound output tensor whose producer bears
    the name of [m] (so in particular whose producer is [m]) the entry [p] of
    [producer_args] is [t].  Both hold in the state the call leaves, whatever
    the later arguments do: [before] and [after] are the consumers appended
    for the arguments on either side of [p]. *)
Theorem tensor_binding_effects fuel self o pre p t post d m st :
  active_graph st = Some o →
  self ≠ o →
  mode_conflict (operation_mode (graph_of st self))
                (operation_mode (graph_of st o)) = false →
  length (steps (graph_of st self)) < fuel →
  NoDup (pre ++ (p, ArgTensor t) :: post).*1 →
  Forall (λ kw, accepts compare st self kw = true) pre →
  bound_input_ports (graph_of st self) !! p = Some d →
  bound_input_modules (graph_of st self) !! p = Some m →
  (compare d (ntype (tensor_of st t)) = SAME
   ∨ compare d (ntype (tensor_of st t)) = GREATER) →
  ∃ out st',
    call compare valid_field_names fuel self (pre ++ (p, ArgTensor t) :: post) st
    = Some (out, st')
    ∧ (∃ before after,
         consumers (tensor_of st' t)
         = consumers (tensor_of st t) ++ before ++ (m, p) :: after)
    ∧ (∀ ot, ot ∈ values (bound_outputs (graph_of st self)) →
             ni_name (producer (tensor_of st ot)) = ni_name m →
             producer_args (tensor_of st' ot) !! p = Some t).
Proof.
  intros Hact Hne Hmode Hfuel Hdup Hpre Hp Hm Hc.
  destruct (call_nested fuel self o (pre ++ (p, ArgTensor t) :: post) st
              Hact Hne Hmode Hfuel)
    as (st1 & _ & _ & Hoth & Hten & _ & Hcall).
  assert (Hself : graph_of st1 self = graph_of st self) by by apply Hoth.
  assert (Htens : ∀ x, tensor_of st1 x = tensor_of st x).
  { intros x. unfold tensor_of. by rewrite Hten. }
  rewrite fmap_app, fmap_cons in Hdup. simpl in Hdup.
  apply NoDup_app in Hdup as (_ & Hp_pre & Hdup).
  apply NoDup_cons in Hdup as [Hp_post _].
  destruct (bind_kwargs_accepted compare self pre st1) as [st2 Hrun].
  { eapply Forall_impl; [done|]. intros kw Hkw. simpl.
    by rewrite (accepts_ext st st1). }
  pose proof (bind_kwargs_frame _ _ _ _ _ _ Hrun) as Hfr.
  destruct (bind_kwarg_tensor self p t d m st2)
    as (st3 & Hstep & Hcons & Hargs & _).
  { by rewrite (fr_ports _ _ _ _ Hfr), Hself. }
  { rewrite (fr_bound_other _ _ _ _ Hfr), Hself; [done|].
    intros Hin. apply (Hp_pre p Hin). apply elem_of_cons. by left. }
  { rewrite (fr_ntype _ _ _ _ Hfr), Htens. by apply accepted_spec. }
  destruct (bind_kwargs compare self post st3) as [out3 st4] eqn:Hpost.
  pose proof (bind_kwargs_frame _ _ _ _ _ _ Hpost) as Hfr'.
  assert (Hrest : ∃ out, call compare valid_field_names fuel self
                           (pre ++ (p, ArgTensor t) :: post) st = Some (out, st4)).
  { rewrite Hcall, bind_kwargs_app, Hrun. cbn [bind_kwargs]. rewrite Hstep, Hpost.
    destruct out3 as [[]|e]; eauto. }
  destruct Hrest as [out Hout]. exists out, st4. split; [done|]. split.
  - destruct (fr_consumers _ _ _ _ Hfr t) as [before Hbefore].
    destruct (fr_consumers _ _ _ _ Hfr' t) as [after Hafter].
    exists before, after.
    rewrite Hafter, Hcons, Hbefore, Htens. by rewrite <- !app_assoc.
  - intros ot Hin Hname.
    rewrite (fr_args_other _ _ _ _ Hfr') by done.
    apply Hargs.
    + by rewrite (fr_outputs _ _ _ _ Hfr), Hself.
    + by rewrite (fr_producer _ _ _ _ Hfr), Htens.
Qed.

(** C4.  For a tensor [t] passed for a declared input port [p] with
    descriptor [d], the loop body accepts the binding if and only if the
    comparison of [d] with [t] is SAME or GREATER; on any other verdict it
    raises the tensor-mismatch error, which carries [d], the type of [t] and
    the verdict, and so does the whole call once the arguments before [p]
    are accepted. *)
Theorem tensor_binding_accepted_iff fuel self o pre p t post d st :
  bound_input_ports (graph_of st self) !! p = Some d →
  ports_have_modules (graph_of st self) →
  let verdict := compare d (ntype (tensor_of st t)) in
  let mismatch :=
    NeuralPortNmTensorMismatchError "NeuralGraph" p d (ntype (tensor_of st t))
      verdict in
  ((∃ st', bind_kwarg compare self (p, ArgTensor t) st = (Returned (), st'))
   ↔ (verdict = SAME ∨ verdict = GREATER))
  ∧ (¬ (verdict = SAME ∨ verdict = GREATER) →
     bind_kwarg compare self (p, ArgTensor t) st = (Raised mismatch, st))
  ∧ (¬ (verdict = SAME ∨ verdict = GREATER) →
     active_graph st = Some o →
     self ≠ o →
     mode_conflict (operation_mode (graph_of st self))
                   (operation_mode (graph_of st o)) = false →
     length (steps (graph_of st self)) < fuel →
     Forall (λ kw, accepts compare st self kw = true) pre →
     ∃ st', call compare valid_field_names fuel self
              (pre ++ (p, ArgTensor t) :: post) st
            = Some (Raised mismatch, st')).
Proof.
  intros Hp Hwf verdict mismatch.
  assert (is_Some (bound_input_modules (graph_of st self) !! p)) as [m Hm].
  { apply elem_of_dom, Hwf, elem_of_dom. eauto. }
  assert (Hno : ∀ st2, bound_input_ports (graph_of st2 self) !! p = Some d →
                 ntype (tensor_of st2 t) = ntype (tensor_of st t) →
                 ¬ (verdict = SAME ∨ verdict = GREATER) →
                 bind_kwarg compare self (p, ArgTensor t) st2 = (Raised mismatch, st2)).
  { intros st2 Hp2 Hty Hv. unfold bind_kwarg. rewrite Hp2, Hty. fold verdict.
    destruct (accepted verdict) eqn:Hacc; [|done].
    by apply accepted_spec in Hacc. }
  split; [|split].
  - split.
    + intros [st' Hret]. destruct (decide (verdict = SAME ∨ verdict = GREATER)) as [|Hv];
        [done|]. rewrite (Hno st Hp eq_refl Hv) in Hret. done.
    + intros Hv. apply accepted_spec in Hv.
      destruct (bind_kwarg_tensor self p t d m st Hp Hm Hv) as (st' & ? & _).
      eauto.
  - by apply Hno.
  - intros Hv Hact Hne Hmode Hfuel Hpre.
    destruct (call_nested fuel self o (pre ++ (p, ArgTensor t) :: post) st
                Hact Hne Hmode Hfuel)
      as (st1 & _ & _ & Hoth & Hten & _ & Hcall).
    assert (Hself : graph_of st1 self = graph_of st self) by by apply Hoth.
    destruct (bind_kwargs_accepted compare self pre st1) as [st2 Hrun].
    { eapply Forall_impl; [done|]. intros kw Hkw. simpl.
      by rewrite (accepts_ext st st1). }
    pose proof (bind_kwargs_frame _ _ _ _ _ _ Hrun) as Hfr.
    exists st2. rewrite Hcall, bind_kwargs_app, Hrun. cbn [bind_kwargs].
    rewrite Hno; [done| |  |done].
    + by rewrite (fr_ports _ _ _ _ Hfr), Hself.
    + rewrite (fr_ntype _ _ _ _ Hfr). unfold tensor_of. by rewrite Hten.
Qed.

(** ** The table of bound input tensors *)

(** What the code does with the table: [bind_input] leaves port [p] unset
    in [bound_input_tensors], and no invocation stores a tensor there: if
    every entry of every graph is unset before a call, every entry is unset
    after it, and an entry that was unset stays unset, also for a port that
    the call has just bound to a tensor. *)
Theorem bound_input_tensors_stay_unset fuel self kwargs st out st' g p d m :
  all_unset st →
  call compare valid_field_names fuel self kwargs st = Some (out, st') →
  bound_input_tensors (bind_input g p d m) !! p = Some None
  ∧ all_unset st'
  ∧ (∀ gid q, bound_input_tensors (graph_of st gid) !! q = Some None →
              bound_input_tensors (graph_of st' gid) !! q = Some None).
Proof.
  intros Hinv Hcall. split; [simpl; by rewrite lookup_insert_eq|].
  rewrite all_unset_graph_of in Hinv |- *.
  apply call_inv in Hcall as [[_ ->]|(o & st1 & _ & Hrun & Hfr & _)]; [done|].
  apply replay_fields in Hrun as [Hg _].
  assert (Hsame : ∀ gid, bound_input_tensors (graph_of st1 gid)
                         = bound_input_tensors (graph_of st gid)).
  { intros gid. by destruct (Hg gid) as (_ & _ & _ & -> & _). }
  split.
  - intros gid q v Hv.
    destruct (fr_unset _ _ _ _ Hfr _ _ _ Hv) as [?|Hv1]; [done|].
    rewrite Hsame in Hv1. by eapply Hinv.
  - intros gid q Hq. apply (fr_unset_keep _ _ _ _ Hfr). by rewrite Hsame.
Qed.

(** ** The result of an invocation *)

(** A call into another graph returns as soon as the mode test passes, every
    argument is accepted and the names of the bound outputs make a named
    tuple (or there is exactly one bound output). *)
Lemma call_returns fuel self o kwargs st :
  active_graph st = Some o →
  self ≠ o →
  mode_conflict (operation_mode (graph_of st self))
                (operation_mode (graph_of st o)) = false →
  length (steps (graph_of st self)) < fuel →
  Forall (λ kw, accepts compare st self kw = true) kwargs →
  (valid_field_names (keys (bound_outputs (graph_of st self))) = true
   ∨ length (bound_outputs (graph_of st self)) = 1) →
  ∃ r st', call compare valid_field_names fuel self kwargs st
           = Some (Returned r, st').
Proof.
  intros Hact Hne Hmode Hfuel Hkw Hval.
  destruct (call_nested fuel self o kwargs st Hact Hne Hmode Hfuel)
    as (st1 & _ & _ & Hoth & Hten & _ & Hcall).
  assert (Hself : graph_of st1 self = graph_of st self) by by apply Hoth.
  destruct (bind_kwargs_accepted compare self kwargs st1) as [st2 Hrun].
  { eapply Forall_impl; [done|]. intros kw ?. simpl. by rewrite (accepts_ext st st1). }
  pose proof (bind_kwargs_frame _ _ _ _ _ _ Hrun) as Hfr.
  rewrite Hcall, Hrun. unfold make_results.
  rewrite (fr_outputs _ _ _ _ Hfr), Hself.
  destruct Hval as [Hval|Hone].
  - rewrite Hval. destruct (values _) as [|? [|? ?]]; eauto.
  - destruct (bound_outputs (graph_of st self)) as [|[n t] [|? ?]]; simpl in *;
      try done. eauto.
Qed.

(** What a call that returns gives back. *)
Lemma call_returned_value fuel self kwargs st r st' :
  call compare valid_field_names fuel self kwargs st = Some (Returned r, st') →
  bound_outputs (graph_of st' self) = bound_outputs (graph_of st self)
  ∧ (∀ n t, bound_outputs (graph_of st self) = [(n, t)] → r = SingleTensor t)
  ∧ (length (bound_outputs (graph_of st self)) ≠ 1 →
     r = NamedTuple "NeuralGraphOutput" (bound_outputs (graph_of st self))).
Proof.
  intros Hcall. set (outs := bound_outputs (graph_of st self)).
  apply call_inv in Hcall as [[[e ?] _]|(o & st1 & _ & Hrun & Hfr & Hout)]; [done|].
  destruct Hout as [(e & ? & _)|[_ Hres]]; [done|].
  apply replay_fields in Hrun as [Hg _].
  assert (Houts : bound_outputs (graph_of st' self) = outs).
  { rewrite (fr_outputs _ _ _ _ Hfr). by destruct (Hg self) as (_ & _ & _ & _ & _ & ->). }
  split; [done|]. unfold make_results in Hres. rewrite Houts in Hres.
  split.
  - intros n t Hone. rewrite Hone in Hres. simpl in Hres. by simplify_eq.
  - intros Hlen. unfold values in Hres.
    destruct outs as [|[n t] [|? ?]]; simpl in *; try done;
      by destruct (valid_field_names _); simplify_eq.
Qed.

(** C6.  Every call that returns gives back the tensor of the single bound
    output when there is exactly one, and otherwise the named tuple whose
    fields are the bound outputs, each under its name, in the order of the
    bindings; the bound outputs are those from before the call.  And the
    call does return these values: nested into another active graph, the
    mode test passed and every argument accepted, it returns the single
    tensor when there is one bound output, and the named tuple of all bound
    outputs when there are none or several and their names are admitted as
    field names. *)
Theorem call_result fuel self o kwargs st :
  let outs := bound_outputs (graph_of st self) in
  (∀ r st',
     call compare valid_field_names fuel self kwargs st = Some (Returned r, st') →
     bound_outputs (graph_of st' self) = outs
     ∧ (∀ n t, outs = [(n, t)] → r = SingleTensor t)
     ∧ (length outs ≠ 1 → r = NamedTuple "NeuralGraphOutput" outs))
  ∧ (active_graph st = Some o →
     self ≠ o →
     mode_conflict (operation_mode (graph_of st self))
                   (operation_mode (graph_of st o)) = false →
     length (steps (graph_of st self)) < fuel →
     Forall (λ kw, accepts compare st self kw = true) kwargs →
     (∀ n t, outs = [(n, t)] →
        ∃ st', call compare valid_field_names fuel self kwargs st
               = Some (Returned (SingleTensor t), st'))
     ∧ (length outs ≠ 1 → valid_field_names (keys outs) = true →
        ∃ st', call compare valid_field_names fuel self kwargs st
               = Some (Returned (NamedTuple "NeuralGraphOutput" outs), st'))).
Proof.
  intros outs. split; [intros r st'; apply call_returned_value|].
  intros Hact Hne Hmode Hfuel Hkw. split.
  - intros n t Hone.
    destruct (call_returns fuel self o kwargs st) as (r & st' & Hcall); try done.
    { right. fold outs. by rewrite Hone. }
    destruct (call_returned_value _ _ _ _ _ _ Hcall) as (_ & Hsingle & _).
    rewrite (Hsingle n t Hone) in Hcall. eauto.
  - intros Hlen Hval.
    destruct (call_returns fuel self o kwargs st) as (r & st' & Hcall); try done.
    { by left. }
    destruct (call_returned_value _ _ _ _ _ _ Hcall) as (_ & _ & Htuple).
    rewrite (Htuple Hlen) in Hcall. eauto.
Qed.

(** ** Replaying the steps of the nested graph *)

Lemma record_steps_names g l s :
  s ∈ l → is_Some (modules (record_steps g l) !! ni_name s.1).
Proof.
  induction l as [|s' l IH] using rev_ind; intros Hin.
  - by apply elem_of_nil in Hin.
  - rewrite record_steps_snoc. simpl.
    destruct (decide (ni_name s'.1 = ni_name s.1)) as [->|Hne].
    + rewrite lookup_insert_eq. eauto.
    + rewrite lookup_insert_ne by done. apply IH.
      apply elem_of_app in Hin as [?|Hin]; [done|].
      apply list_elem_of_singleton in Hin. by subst.
Qed.

(** C7.  When [self] is invoked while another graph [o] is active and the
    mode test passes, the call comes to an end (with a result or with an
    exception from the arguments) and has appended the steps of [self], in
    their order, to the steps of [o]: the steps of [self] are a subsequence
    of those of [o], and every module of [self] is a module of [o] under the
    same name. *)
Theorem nested_steps_replayed fuel self o kwargs st :
  active_graph st = Some o →
  self ≠ o →
  mode_conflict (operation_mode (graph_of st self))
                (operation_mode (graph_of st o)) = false →
  length (steps (graph_of st self)) < fuel →
  modules_from_steps (graph_of st self) →
  ∃ out st',
    call compare valid_field_names fuel self kwargs st = Some (out, st')
    ∧ steps (graph_of st' o) = steps (graph_of st o) ++ steps (graph_of st self)
    ∧ steps (graph_of st self) `sublist_of` steps (graph_of st' o)
    ∧ modules (graph_of st self) ⊆ modules (graph_of st' o)
    ∧ (∀ s, s ∈ steps (graph_of st self) →
            is_Some (modules (graph_of st' o) !! ni_name s.1)).
Proof.
  intros Hact Hne Hmode Hfuel Hmods.
  destruct (call_nested fuel self o kwargs st Hact Hne Hmode Hfuel)
    as (st1 & _ & Ho & _ & _ & _ & Hcall).
  destruct (bind_kwargs compare self kwargs st1) as [out2 st2] eqn:Hrun.
  pose proof (bind_kwargs_frame _ _ _ _ _ _ Hrun) as Hfr.
  assert (Hsteps : steps (graph_of st2 o)
                   = steps (graph_of st o) ++ steps (graph_of st self)).
  { by rewrite (fr_steps _ _ _ _ Hfr), Ho, steps_record_steps. }
  assert (Hmod2 : modules (graph_of st2 o)
                  = modules (record_steps (graph_of st o) (steps (graph_of st self)))).
  { by rewrite (fr_modules _ _ _ _ Hfr), Ho. }
  assert (∃ out, call compare valid_field_names fuel self kwargs st = Some (out, st2))
    as [out Hout].
  { rewrite Hcall. destruct out2 as [[]|e]; eauto. }
  exists out, st2. split; [done|]. split; [done|]. split; [|split].
  - rewrite Hsteps. by apply sublist_inserts_l.
  - rewrite Hmod2, Hmods. apply modules_record_steps_mono. simpl.
    apply map_empty_subseteq.
  - intros s Hin. rewrite Hmod2. by apply record_steps_names.
Qed.

End Claims.

(** Nesting a graph that holds a step into itself never comes to an end,
    whatever the fuel: the loop of lines 100-101 feeds on its own list. *)
Lemma self_nesting_never_returns compare valid_field_names fuel self kwargs st :
  active_graph st = Some self →
  steps (graph_of st self) ≠ [] →
  call compare valid_field_names fuel self kwargs st = None.
Proof.
  intros Hact Hsteps. unfold call. rewrite Hact.
  assert (Hm : check_modes (operation_mode (graph_of st self))
                           (operation_mode (graph_of st self)) = Returned ()).
  { by destruct (operation_mode (graph_of st self)). }
  rewrite Hm, replay_self_diverges; [done|].
  destruct (steps (graph_of st self)); [done|simpl; lia].
Qed.

(** ** Step recording *)


(** The properties assumed of a graph in the statements above are kept by
    every operation: they hold of each graph of a session. *)
Lemma modules_record_steps_ext g g' l :
  modules g = modules g' →
  modules (record_steps g l) = modules (record_steps g' l).
Proof.
  revert g g'. induction l as [|s l IH]; intros g g' Heq; [done|].
  rewrite !record_steps_cons. apply IH. simpl. by rewrite Heq.
Qed.

Lemma bind_input_modules_from_steps g p d m :
  modules_from_steps g → modules_from_steps (bind_input g p d m).
Proof. done. Qed.

Lemma replay_modules_from_steps fuel self outer i st st' :
  replay fuel self outer i st = Some st' →
  (∀ g, modules_from_steps (graph_of st g)) →
  ∀ g, modules_from_steps (graph_of st' g).
Proof.
  revert i st. induction fuel as [|fuel IH]; intros i st Hrun Hinv; [done|].
  simpl in Hrun. destruct (steps (graph_of st self) !! i) as [[m a]|].
  - eapply IH; [done|]. intros g. destruct (decide (outer = g)) as [->|Hne].
    + rewrite graph_of_set_graph_eq. by apply record_step_modules_from_steps.
    + by rewrite graph_of_set_graph_ne.
  - by simplify_eq.
Qed.

Lemma call_modules_from_steps compare valid_field_names fuel self kwargs st out st' :
  call compare valid_field_names fuel self kwargs st = Some (out, st') →
  (∀ g, modules_from_steps (graph_of st g)) →
  ∀ g, modules_from_steps (graph_of st' g).
Proof.
  intros Hcall Hinv.
  apply call_inv in Hcall as [[_ ->]|(o & st1 & _ & Hrun & Hfr & _)]; [done|].
  intros g. unfold modules_from_steps.
  rewrite (fr_steps _ _ _ _ Hfr), (fr_modules _ _ _ _ Hfr),
    (fr_mode _ _ _ _ Hfr), (fr_name _ _ _ _ Hfr).
  by apply (replay_modules_from_steps _ _ _ _ _ _ Hrun Hinv g).
Qed.

Lemma replay_ports_have_modules fuel self outer i st st' :
  replay fuel self outer i st = Some st' →
  (∀ g, ports_have_modules (graph_of st g)) →
  ∀ g, ports_have_modules (graph_of st' g).
Proof.
  intros Hrun Hinv g. apply replay_fields in Hrun as [Hg _].
  unfold ports_have_modules. destruct (Hg g) as (_ & _ & -> & _ & -> & _).
  apply Hinv.
Qed.

Lemma bind_kwarg_ports_have_modules compare self kw st out st' :
  bind_kwarg compare self kw st = (out, st') →
  (∀ g, ports_have_modules (graph_of st g)) →
  ∀ g, ports_have_modules (graph_of st' g).
Proof.
  destruct kw as [p [h|t]]; unfold bind_kwarg; intros H Hinv g.
  - destruct (bound_input_ports (graph_of st self) !! p); simplify_eq; [|done].
    destruct (decide (h = g)) as [->|Hne].
    + rewrite graph_of_set_graph_eq. by apply bind_input_ports_have_modules.
    + by rewrite graph_of_set_graph_ne.
  - destruct (bound_input_ports (graph_of st self) !! p) as [d|];
      [|by simplify_eq].
    destruct (accepted _); [|by simplify_eq].
    destruct (bound_input_modules (graph_of st self) !! p) as [m|];
      [|by simplify_eq].
    simplify_eq.
    set (st1 := set_tensor t (add_consumer (tensor_of st t) m p) st).
    rewrite (graph_of_same_graphs st); [apply Hinv|].
    by destruct (update_outputs_graphs m p t
                   (values (bound_outputs (graph_of st1 self))) st1) as [-> _].
Qed.

Lemma bind_kwargs_ports_have_modules compare self kwargs st out st' :
  bind_kwargs compare self kwargs st = (out, st') →
  (∀ g, ports_have_modules (graph_of st g)) →
  ∀ g, ports_have_modules (graph_of st' g).
Proof.
  revert st. induction kwargs as [|kw kwargs IH]; intros st H Hinv; simpl in H.
  - by simplify_eq.
  - destruct (bind_kwarg compare self kw st) as [[[]|e] st1] eqn:Hkw.
    + eapply IH; [done|]. by eapply bind_kwarg_ports_have_modules.
    + simplify_eq. by eapply bind_kwarg_ports_have_modules.
Qed.

Lemma call_ports_have_modules compare valid_field_names fuel self kwargs st out st' :
  call compare valid_field_names fuel self kwargs st = Some (out, st') →
  (∀ g, ports_have_modules (graph_of st g)) →
  ∀ g, ports_have_modules (graph_of st' g).
Proof.
  intros Hcall Hinv.
  apply call_inv in Hcall as [[_ ->]|(o & st1 & _ & Hrun & _ & Hout)]; [done|].
  pose proof (replay_ports_have_modules _ _ _ _ _ _ Hrun Hinv) as Hinv1.
  destruct Hout as [(e & _ & Hkw)|[Hkw _]];
    by eapply bind_kwargs_ports_have_modules.
Qed.

(** ** The singleton *)

Lemma singleton_call_registered cls obj device rt :
  Singleton.instances rt !! cls = Some obj →
  Singleton.call cls device rt = (obj, rt).
Proof.
  intros Hreg. unfold Singleton.call.
  rewrite decide_False by (by rewrite Hreg).
  by rewrite (lookup_total_correct _ _ _ Hreg).
Qed.

Lemma singleton_call_registers cls device rt :
  Singleton.instances (Singleton.call cls device rt).2 !! cls
  = Some (Singleton.call cls device rt).1.
Proof.
  unfold Singleton.call. simpl.
  destruct (decide (Singleton.instances rt !! cls = None)) as [Hnone|Hsome]; simpl.
  - by rewrite lookup_total_insert_eq, lookup_insert_eq.
  - destruct (Singleton.instances rt !! cls) as [obj|] eqn:Hreg; [|done].
    by rewrite (lookup_total_correct _ _ _ Hreg).
Qed.

Lemma singleton_call_keeps cls obj cls' device rt :
  Singleton.instances rt !! cls = Some obj →
  Singleton.instances (Singleton.call cls' device rt).2 !! cls = Some obj.
Proof.
  intros Hreg. unfold Singleton.call. simpl.
  destruct (decide (Singleton.instances rt !! cls' = None)) as [Hnone|Hsome];
    simpl; [|done].
  rewrite lookup_insert_ne; [done|]. intros ->. congruence.
Qed.

Lemma singleton_calls_registered cls obj cs rt k device :
  Singleton.instances rt !! cls = Some obj →
  cs !! k = Some (cls, device) →
  (Singleton.calls cs rt).1 !! k = Some obj.
Proof.
  revert rt k. induction cs as [|[c d] cs IH]; intros rt k Hreg Hk; [done|].
  cbn [Singleton.calls].
  destruct (Singleton.call c d rt) as [obj1 rt1] eqn:Hcall.
  destruct (Singleton.calls cs rt1) as [objs rt2] eqn:Hcalls.
  destruct k as [|k]; simpl in Hk |- *.
  - simplify_eq. rewrite (singleton_call_registered _ _ _ _ Hreg) in Hcall.
    by simplify_eq.
  - specialize (IH rt1 k). rewrite Hcalls in IH. apply IH; [|done].
    replace rt1 with (Singleton.call c d rt).2 by by rewrite Hcall.
    by apply singleton_call_keeps.
Qed.

(** C9.  After a first call of the accessor for class [cls], every later call
    for [cls], whatever its argument and whatever calls for other classes
    come between, returns the instance that the first call returned; a
    repeated call changes nothing. *)
Theorem singleton_same_instance cls device cs k device' rt :
  cs !! k = Some (cls, device') →
  let first := (Singleton.call cls device rt).1 in
  let rt1 := (Singleton.call cls device rt).2 in
  (Singleton.calls cs rt1).1 !! k = Some first
  ∧ Singleton.call cls device' rt1 = (first, rt1).
Proof.
  intros Hk first rt1. split.
  - eapply singleton_calls_registered; [|done]. apply singleton_call_registers.
  - apply singleton_call_registered, singleton_call_registers.
Qed.

(** ** Leaving the scope of a graph *)

(** C10.  [deactivate] and [__exit__] write none into the active-graph slot
    whatever it held: after them no graph is active, neither a graph
    [other] whose scope was entered before that of [self], nor one
    activated after it. *)
Theorem exit_clears_active_graph self other st :
  active_graph (exit self st) = None
  ∧ active_graph (deactivate self st) = None
  ∧ active_graph (exit self (enter self (enter other st))) = None
  ∧ active_graph (deactivate self (activate self (activate other st))) = None
  ∧ active_graph (exit self (enter other (enter self st))) = None
  ∧ active_graph (deactivate self (activate other (activate self st))) = None
  ∧ graphs (exit self st) = graphs st
  ∧ tensors (exit self st) = tensors st.
Proof. repeat split. Qed.

(** ** The theorems at work on the worked configuration *)


(** With the inference graph 4 active, the training graph 3 is refused. *)
Lemma nesting_mode_error_witness :
  active_graph (ex_state (Some 4)) = Some 4
  ∧ call ex_compare ex_valid_field_names 0 3 [("x", ArgTensor 7)] (ex_state (Some 4))
    = Some (Raised (TypeError "Cannot nest 'training' graph into 'inference'"),
            ex_state (Some 4)).
Proof.
  split; [reflexivity|].
  destruct (nesting_mode_error ex_compare ex_valid_field_names 0 3 4
              [("x", ArgTensor 7)] (ex_state (Some 4)) eq_refl) as (_ & H & _).
  apply H; reflexivity.
Defined.

(** The modes differ, graph 2 being in mode both and the active graph 5 in
    mode training, and yet the call returns. *)
Lemma both_into_training_returns :
  operation_mode (graph_of (ex_state (Some 5)) 2)
  ≠ operation_mode (graph_of (ex_state (Some 5)) 5)
  ∧ ∃ st', call ex_compare ex_valid_field_names 2 2 [("x", ArgTensor 7)]
             (ex_state (Some 5))
           = Some (Returned (SingleTensor 8), st').
Proof.
  split; [by vm_compute|]. eexists. vm_compute. reflexivity.
Qed.

(** The invocation used in the lemmas below, and what it leaves. *)
Lemma ex_call_outcome :
  call ex_compare ex_valid_field_names 2 2 [("x", ArgTensor 7)] (ex_state (Some 1))
  = Some (Returned (SingleTensor 8), ex_state_after).
Proof. vm_compute. reflexivity. Qed.

(** With two bound outputs the result is the named tuple of both. *)
Lemma ex_call_named_tuple :
  ∃ st', call ex_compare ex_valid_field_names 2 6 [] (ex_state (Some 1))
         = Some (Returned (NamedTuple "NeuralGraphOutput"
                             [("y_pred", 8); ("x", 7)]), st').
Proof. eexists. vm_compute. reflexivity. Qed.

(** The undeclared name [zz] after an accepted argument. *)
Lemma unknown_keyword_fails_witness :
  bound_input_ports (graph_of (ex_state (Some 1)) 2) !! "zz" = None
  ∧ ∃ st',
      call ex_compare ex_valid_field_names 2 2
        ([("x", ArgTensor 7)] ++ ("zz", ArgGraph 1) :: []) (ex_state (Some 1))
      = Some (Raised (NeuralPortNameMismatchError "zz"), st')
      ∧ steps (graph_of st' 2) = steps (graph_of (ex_state (Some 1)) 2).
Proof.
  split; [reflexivity|].
  apply (unknown_keyword_fails ex_compare ex_valid_field_names 2 2 1
           [("x", ArgTensor 7)] "zz" (ArgGraph 1) [] (ex_state (Some 1))).
  - reflexivity.
  - lia.
  - reflexivity.
  - vm_compute. lia.
  - by_decision.
  - reflexivity.
Defined.

(** The undeclared name [zz] does not decide the error when the modes
    conflict (graph 3 in graph 4), nor when an earlier argument is refused
    (tensor 9 for port [x] of graph 2). *)
Lemma unknown_keyword_other_errors :
  bound_input_ports (graph_of (ex_state (Some 4)) 3) !! "zz" = None
  ∧ call ex_compare ex_valid_field_names 2 3 [("zz", ArgTensor 7)]
      (ex_state (Some 4))
    = Some (Raised (TypeError "Cannot nest 'training' graph into 'inference'"),
            ex_state (Some 4))
  ∧ bound_input_ports (graph_of (ex_state (Some 1)) 2) !! "zz" = None
  ∧ ∃ st',
      call ex_compare ex_valid_field_names 2 2
        [("x", ArgTensor 9); ("zz", ArgTensor 7)] (ex_state (Some 1))
      = Some (Raised (NeuralPortNmTensorMismatchError "NeuralGraph" "x"
                        ex_type ex_other_type INCOMPATIBLE), st').
Proof.
  split; [reflexivity|]. split; [vm_compute; reflexivity|].
  split; [reflexivity|]. eexists. vm_compute. reflexivity.
Qed.

Lemma tensor_binding_effects_witness :
  bound_input_modules (graph_of (ex_state (Some 1)) 2) !! "x" = Some ex_tm
  ∧ ex_compare ex_type (ntype (tensor_of (ex_state (Some 1)) 7)) = SAME
  ∧ ∃ out st',
      call ex_compare ex_valid_field_names 2 2
        ([] ++ ("x", ArgTensor 7) :: []) (ex_state (Some 1)) = Some (out, st')
      ∧ (∃ before after,
           consumers (tensor_of st' 7)
           = consumers (tensor_of (ex_state (Some 1)) 7)
             ++ before ++ (ex_tm, "x") :: after)
      ∧ (∀ ot, ot ∈ values (bound_outputs (graph_of (ex_state (Some 1)) 2)) →
               ni_name (producer (tensor_of (ex_state (Some 1)) ot))
               = ni_name ex_tm →
               producer_args (tensor_of st' ot) !! "x" = Some 7).
Proof.
  split; [reflexivity|]. split; [reflexivity|].
  apply (tensor_binding_effects ex_compare ex_valid_field_names 2 2 1
           [] "x" 7 [] ex_type ex_tm (ex_state (Some 1))).
  - reflexivity.
  - lia.
  - reflexivity.
  - vm_compute. lia.
  - by_decision.
  - by_decision.
  - reflexivity.
  - reflexivity.
  - left. reflexivity.
Defined.

Lemma tensor_binding_accepted_iff_witness :
  bound_input_ports (graph_of (ex_state (Some 1)) 2) !! "x" = Some ex_type
  ∧ ports_have_modules (graph_of (ex_state (Some 1)) 2)
  ∧ bind_kwarg ex_compare 2 ("x", ArgTensor 9) (ex_state (Some 1))
    = (Raised (NeuralPortNmTensorMismatchError "NeuralGraph" "x" ex_type
                 ex_other_type INCOMPATIBLE), ex_state (Some 1)).
Proof.
  assert (Hp : bound_input_ports (graph_of (ex_state (Some 1)) 2) !! "x"
               = Some ex_type) by reflexivity.
  assert (Hwf : ports_have_modules (graph_of (ex_state (Some 1)) 2))
    by by_decision.
  split; [exact Hp|]. split; [exact Hwf|].
  destruct (tensor_binding_accepted_iff ex_compare ex_valid_field_names 2 2 1
              [] "x" 9 [] ex_type (ex_state (Some 1)) Hp Hwf) as (_ & H & _).
  apply H. vm_compute. intros [?|?]; discriminate.
Defined.

Lemma bound_input_tensors_stay_unset_witness :
  all_unset (ex_state (Some 1))
  ∧ bound_input_tensors (bind_input (init_graph both "g") "x" ex_type ex_tm) !! "x"
    = Some None
  ∧ all_unset ex_state_after.
Proof.
  assert (Hinv : all_unset (ex_state (Some 1))) by by_decision.
  split; [exact Hinv|].
  destruct (bound_input_tensors_stay_unset ex_compare ex_valid_field_names 2 2
              [("x", ArgTensor 7)] (ex_state (Some 1))
              (Returned (SingleTensor 8)) ex_state_after
              (init_graph both "g") "x" ex_type ex_tm Hinv ex_call_outcome)
    as (H1 & H2 & _).
  split; [exact H1|exact H2].
Defined.

(** C5.  The invariant asks that [bound_input_tensors[p]] be set once port
    [p] has received a tensor.  Here graph 2 is invoked with tensor 7 for
    its bound port [x]: the call returns, tensor 7 has the bound module as a
    consumer, and the entry of [x] in [bound_input_tensors] is unset as
    before, against the comment of line 279 that an unset entry marks a
    tensor that is still to be provided. *)
Lemma bound_port_stays_unset :
  call ex_compare ex_valid_field_names 2 2 [("x", ArgTensor 7)] (ex_state (Some 1))
  = Some (Returned (SingleTensor 8), ex_state_after)
  ∧ (ex_tm, "x") ∈ consumers (tensor_of ex_state_after 7)
  ∧ bound_input_tensors (graph_of ex_state_after 2) !! "x" = Some None.
Proof.
  split; [exact ex_call_outcome|]. split; [|reflexivity].
  vm_compute. apply list_elem_of_here.
Qed.

Lemma call_result_witness :
  (∃ st', call ex_compare ex_valid_field_names 2 2 [("x", ArgTensor 7)]
            (ex_state (Some 1))
          = Some (Returned (SingleTensor 8), st'))
  ∧ (∃ st', call ex_compare ex_valid_field_names 2 6 [("x", ArgTensor 7)]
              (ex_state (Some 1))
            = Some (Returned (NamedTuple "NeuralGraphOutput"
                                [("y_pred", 8); ("x", 7)]), st')).
Proof.
  split.
  - destruct (call_result ex_compare ex_valid_field_names 2 2 1
                [("x", ArgTensor 7)] (ex_state (Some 1))) as [_ H].
    destruct H as [H _].
    + reflexivity.
    + lia.
    + reflexivity.
    + vm_compute. lia.
    + by_decision.
    + apply (H "y_pred" 8). reflexivity.
  - destruct (call_result ex_compare ex_valid_field_names 2 6 1
                [("x", ArgTensor 7)] (ex_state (Some 1))) as [_ H].
    destruct H as [_ H].
    + reflexivity.
    + lia.
    + reflexivity.
    + vm_compute. lia.
    + by_decision.
    + apply H.
      * vm_compute. lia.
      * vm_compute. reflexivity.
Defined.

Lemma nested_steps_replayed_witness :
  modules_from_steps (graph_of (ex_state (Some 1)) 2)
  ∧ ∃ out st',
      call ex_compare ex_valid_field_names 2 2 [("x", ArgTensor 7)]
        (ex_state (Some 1)) = Some (out, st')
      ∧ steps (graph_of st' 1)
        = steps (graph_of (ex_state (Some 1)) 1)
          ++ steps (graph_of (ex_state (Some 1)) 2)
      ∧ steps (graph_of (ex_state (Some 1)) 2) `sublist_of` steps (graph_of st' 1)
      ∧ modules (graph_of (ex_state (Some 1)) 2) ⊆ modules (graph_of st' 1)
      ∧ (∀ s, s ∈ steps (graph_of (ex_state (Some 1)) 2) →
              is_Some (modules (graph_of st' 1) !! ni_name s.1)).
Proof.
  assert (Hm : modules_from_steps (graph_of (ex_state (Some 1)) 2))
    by (vm_compute; reflexivity).
  split; [exact Hm|].
  apply (nested_steps_replayed ex_compare ex_valid_field_names 2 2 1
           [("x", ArgTensor 7)] (ex_state (Some 1))).
  - reflexivity.
  - lia.
  - reflexivity.
  - vm_compute. lia.
  - exact Hm.
Defined.



Lemma singleton_same_instance_witness :
  let cs := [("AppState", None); ("Session", None);
             ("AppState", Some Singleton.GPU)] in
  cs !! 2 = Some ("AppState", Some Singleton.GPU)
  ∧ (Singleton.calls cs
       (Singleton.call "AppState" (Some Singleton.CPU) Singleton.empty_runtime).2).1
    !! 2
    = Some (Singleton.call "AppState" (Some Singleton.CPU)
              Singleton.empty_runtime).1.
Proof.
  intros cs. split; [reflexivity|].
  destruct (singleton_same_instance "AppState" (Some Singleton.CPU) cs 2
              (Some Singleton.GPU) Singleton.empty_runtime eq_refl) as (H & _).
  exact H.
Defined.

(** The three calls of the lemma above, run: the first instance, made for
    the CPU, is what the later calls return. *)
Lemma ex_singleton_calls :
  (Singleton.calls
     [("AppState", Some Singleton.CPU); ("AppState", None);
      ("Session", None); ("AppState", Some Singleton.GPU)]
     Singleton.empty_runtime).1
  = [Singleton.MkInstance 0 "AppState" Singleton.CPU;
     Singleton.MkInstance 0 "AppState" Singleton.CPU;
     Singleton.MkInstance 1 "Session" Singleton.GPU;
     Singleton.MkInstance 0 "AppState" Singleton.CPU].
Proof. vm_compute. reflexivity. Qed.

(** * Further properties of the graph and of the singleton *)

(** ** Looking modules up: [__getitem__] and [__len__] *)

Lemma last_named_snoc key l s :
  last_named key (l ++ [s])
  = if decide (ni_name s.1 = key) then Some s.1 else last_named key l.
Proof.
  unfold last_named. rewrite filter_app.
  rewrite (filter_cons (λ s, ni_name s.1 = key) s []), filter_nil.
  destruct (decide (ni_name s.1 = key)) as [Heq|Hne].
  - by rewrite last_snoc.
  - by rewrite app_nil_r.
Qed.

Lemma last_named_None key l : last_named key l = None ↔ key ∉ step_names l.
Proof.
  unfold last_named, step_names. rewrite fmap_None, last_None. split.
  - intros Hnil (s & -> & Hin)%list_elem_of_fmap.
    by apply (filter_nil_not_elem_of _ _ _ Hnil eq_refl).
  - intros Hnot. destruct (filter _ l) as [|s l'] eqn:Hf; [done|].
    assert (Hs : s ∈ filter (λ s, ni_name s.1 = key) l).
    { rewrite Hf. apply list_elem_of_here. }
    apply list_elem_of_filter in Hs as [Hname Hin]. destruct Hnot.
    apply list_elem_of_fmap. eauto.
Qed.

(** What [modules] holds under a name after a run of recordings. *)
Lemma modules_record_steps_lookup g l key :
  modules (record_steps g l) !! key
  = match last_named key l with
    | Some m => Some m
    | None => modules g !! key
    end.
Proof.
  induction l as [|s l IH] using rev_ind; [done|].
  rewrite record_steps_snoc, last_named_snoc. simpl.
  destruct (decide (ni_name s.1 = key)) as [<-|Hne].
  - by rewrite lookup_insert_eq.
  - by rewrite lookup_insert_ne.
Qed.

(** X1.  In a graph whose modules are those of its steps, [graph[key]]
    returns the module of the last step recorded under the name [key]; it
    raises [KeyError] exactly when no step was recorded under that name. *)
Theorem getitem_last_recorded g key :
  modules_from_steps g →
  getitem g key
  = match last_named key (steps g) with
    | Some m => Returned m
    | None => Raised (KeyError key)
    end
  ∧ (getitem g key = Raised (KeyError key) ↔ key ∉ step_names (steps g)).
Proof.
  intros Hinv.
  assert (Hget : getitem g key
                 = match last_named key (steps g) with
                   | Some m => Returned m
                   | None => Raised (KeyError key)
                   end).
  { unfold getitem. rewrite Hinv, modules_record_steps_lookup. simpl.
    rewrite lookup_empty. by destruct (last_named key (steps g)). }
  split; [done|]. rewrite Hget, <- last_named_None.
  destruct (last_named key (steps g)); split; done.
Qed.

Lemma dom_modules_record_steps g l :
  dom (modules (record_steps g l))
  = dom (modules g) ∪ list_to_set (step_names l).
Proof.
  induction l as [|s l IH] using rev_ind.
  - simpl. by rewrite (right_id_L ∅ (∪)).
  - rewrite record_steps_snoc. simpl. rewrite dom_insert_L, IH.
    unfold step_names. rewrite fmap_app, list_to_set_app_L. simpl.
    rewrite (right_id_L ∅ (∪)).
    rewrite (comm_L (∪) {[ni_name s.1]}). by rewrite (assoc_L (∪)).
Qed.

(** X2.  In a graph whose modules are those of its steps, [len(graph)] is
    the number of distinct names under which steps were recorded; it never
    exceeds the number of steps. *)
Theorem len_counts_step_names g :
  modules_from_steps g →
  len g = length (remove_dups (step_names (steps g)))
  ∧ (len g ≤ length (steps g))%nat.
Proof.
  intros Hinv.
  assert (Hlen : len g = length (remove_dups (step_names (steps g)))).
  { unfold len. rewrite Hinv, <- size_dom, dom_modules_record_steps. simpl.
    rewrite dom_empty_L, (left_id_L ∅ (∪)).
    rewrite <- (size_list_to_set (C := gset string) (remove_dups _))
      by apply NoDup_remove_dups.
    f_equal. apply set_eq. intros x.
    by rewrite !elem_of_list_to_set, elem_of_remove_dups. }
  split; [done|]. rewrite Hlen.
  etrans; [|by rewrite <- (length_fmap (λ s, ni_name s.1))].
  apply submseteq_length, NoDup_submseteq; [apply NoDup_remove_dups|].
  intros x. by rewrite elem_of_remove_dups.
Qed.

(** ** What an invocation writes and what it leaves *)

(** X3.  An invocation raises [AttributeError] exactly when no graph is
    active, and a call that ends with [AttributeError] or with the mode
    error has written nothing: the store is the one from before the call. *)
Theorem early_failures_write_nothing compare valid_field_names fuel self kwargs st :
  ((∃ st', call compare valid_field_names fuel self kwargs st
           = Some (Raised AttributeError, st'))
   ↔ active_graph st = None)
  ∧ (∀ e st', call compare valid_field_names fuel self kwargs st
              = Some (Raised e, st') →
              e = AttributeError ∨ (∃ msg, e = TypeError msg) → st' = st).
Proof.
  split.
  - split.
    + intros [st' Hcall]. unfold call in Hcall.
      destruct (active_graph st) as [o|]; [|done].
      destruct (check_modes _ _) as [[]|e] eqn:Hchk.
      * destruct (replay fuel self o 0 st) as [st1|]; [|done].
        destruct (bind_kwargs compare self kwargs st1) as [[[]|e] st2] eqn:Hkw.
        -- simplify_eq. match goal with H : make_results _ _ = _ |- _ =>
             apply make_results_raised in H; done end.
        -- simplify_eq.
           apply bind_kwargs_raised in Hkw as [[? ?]|[(?&?&?&?&?&?)|[? ?]]]; done.
      * simplify_eq. apply check_modes_only_type_error in Hchk as [? ?]. done.
    + intros Hnone. exists st. unfold call. by rewrite Hnone.
  - intros e st' Hcall He.
    apply call_inv in Hcall as [[_ ->]|(o & st1 & _ & _ & _ & Hout)]; [done|].
    destruct Hout as [(e' & Heq & Hkw)|[_ Hres]].
    + simplify_eq.
      apply bind_kwargs_raised in Hkw as [[? ?]|[(?&?&?&?&?&?)|[? ?]]];
        destruct He as [?|[? ?]]; simplify_eq.
    + symmetry in Hres. apply make_results_raised in Hres.
      destruct He as [?|[? ?]]; simplify_eq.
Qed.

(** The replay loop writes to the graph it copies into and to no other. *)
Lemma replay_writes_outer_only fuel self outer i st st' :
  replay fuel self outer i st = Some st' →
  ∀ g, g ≠ outer → graph_of st' g = graph_of st g.
Proof.
  revert i st. induction fuel as [|fuel IH]; intros i st Hrun g Hne; [done|].
  simpl in Hrun. destruct (steps (graph_of st self) !! i) as [[m a]|].
  - rewrite (IH _ _ Hrun g Hne). by rewrite graph_of_set_graph_ne.
  - by simplify_eq.
Qed.

(** Recording the same steps a second time changes no stored module. *)
Lemma modules_record_steps_twice g l :
  modules (record_steps (record_steps g l) l) = modules (record_steps g l).
Proof.
  apply map_eq. intros key. rewrite !modules_record_steps_lookup.
  by destruct (last_named key l).
Qed.

(** The outer graph and the nested graph after a call that passes the mode
    test. *)
Lemma call_nested_outer compare valid_field_names fuel self o kwargs st :
  active_graph st = Some o →
  self ≠ o →
  mode_conflict (operation_mode (graph_of st self))
                (operation_mode (graph_of st o)) = false →
  length (steps (graph_of st self)) < fuel →
  ∃ out st',
    call compare valid_field_names fuel self kwargs st = Some (out, st')
    ∧ active_graph st' = Some o
    ∧ steps (graph_of st' o) = steps (graph_of st o) ++ steps (graph_of st self)
    ∧ modules (graph_of st' o)
      = modules (record_steps (graph_of st o) (steps (graph_of st self)))
    ∧ steps (graph_of st' self) = steps (graph_of st self)
    ∧ (∀ g, operation_mode (graph_of st' g) = operation_mode (graph_of st g)).
Proof.
  intros Hact Hne Hmode Hfuel.
  destruct (call_nested compare valid_field_names fuel self o kwargs st
              Hact Hne Hmode Hfuel)
    as (st1 & Hrun & Ho & Hoth & _ & Hact1 & Hcall).
  destruct (bind_kwargs compare self kwargs st1) as [out2 st2] eqn:Hkw.
  pose proof (bind_kwargs_frame _ _ _ _ _ _ Hkw) as Hfr.
  apply replay_fields in Hrun as [Hfields _].
  assert (∃ out, call compare valid_field_names fuel self kwargs st = Some (out, st2))
    as [out Hout].
  { rewrite Hcall. destruct out2 as [[]|e]; eauto. }
  exists out, st2. split; [done|]. repeat split.
  - by rewrite (fr_active _ _ _ _ Hfr), Hact1.
  - by rewrite (fr_steps _ _ _ _ Hfr), Ho, steps_record_steps.
  - by rewrite (fr_modules _ _ _ _ Hfr), Ho.
  - by rewrite (fr_steps _ _ _ _ Hfr), Hoth.
  - intros g. rewrite (fr_mode _ _ _ _ Hfr). by destruct (Hfields g) as (_ & -> & _).
Qed.

(** X4.  Invoking the same graph twice while another graph [o] is active
    appends its steps to the steps of [o] twice, whatever the arguments and
    the outcomes of the two calls; the modules of [o] after the second call
    are those after the first. *)
Theorem nesting_twice compare valid_field_names fuel self o kwargs1 kwargs2 st :
  active_graph st = Some o →
  self ≠ o →
  mode_conflict (operation_mode (graph_of st self))
                (operation_mode (graph_of st o)) = false →
  length (steps (graph_of st self)) < fuel →
  ∃ out1 st1 out2 st2,
    call compare valid_field_names fuel self kwargs1 st = Some (out1, st1)
    ∧ call compare valid_field_names fuel self kwargs2 st1 = Some (out2, st2)
    ∧ steps (graph_of st2 o)
      = steps (graph_of st o) ++ steps (graph_of st self) ++ steps (graph_of st self)
    ∧ modules (graph_of st2 o) = modules (graph_of st1 o).
Proof.
  intros Hact Hne Hmode Hfuel.
  destruct (call_nested_outer compare valid_field_names fuel self o kwargs1 st
              Hact Hne Hmode Hfuel)
    as (out1 & st1 & Hcall1 & Hact1 & Hsteps1 & Hmods1 & Hself1 & Hmode1).
  destruct (call_nested_outer compare valid_field_names fuel self o kwargs2 st1)
    as (out2 & st2 & Hcall2 & _ & Hsteps2 & Hmods2 & _ & _); try done.
  { by rewrite !Hmode1. }
  { by rewrite Hself1. }
  exists out1, st1, out2, st2. split; [done|]. split; [done|]. split.
  - by rewrite Hsteps2, Hsteps1, Hself1, <- app_assoc.
  - rewrite Hmods2, Hself1.
    rewrite (modules_record_steps_ext (graph_of st1 o)
               (record_steps (graph_of st o) (steps (graph_of st self)))) by done.
    by rewrite modules_record_steps_twice.
Qed.

(** X5.  An invocation that comes to an end, with a result or with an
    exception, leaves the active graph active, changes the name, the
    operation mode and the bound outputs of no graph, and records steps and
    modules in no graph but the active one. *)
Theorem call_keeps_graphs compare valid_field_names fuel self kwargs st out st' :
  call compare valid_field_names fuel self kwargs st = Some (out, st') →
  active_graph st' = active_graph st
  ∧ (∀ g, name (graph_of st' g) = name (graph_of st g)
          ∧ operation_mode (graph_of st' g) = operation_mode (graph_of st g)
          ∧ bound_outputs (graph_of st' g) = bound_outputs (graph_of st g))
  ∧ (∀ g, active_graph st ≠ Some g →
          steps (graph_of st' g) = steps (graph_of st g)
          ∧ modules (graph_of st' g) = modules (graph_of st g)).
Proof.
  intros Hcall.
  apply call_inv in Hcall as [[_ ->]|(o & st1 & Hact & Hrun & Hfr & _)]; [done|].
  pose proof (replay_writes_outer_only _ _ _ _ _ _ Hrun) as Hoth.
  apply replay_fields in Hrun as (Hfields & _ & Hact1).
  split; [|split].
  - by rewrite (fr_active _ _ _ _ Hfr).
  - intros g. rewrite (fr_name _ _ _ _ Hfr), (fr_mode _ _ _ _ Hfr),
      (fr_outputs _ _ _ _ Hfr).
    by destruct (Hfields g) as (-> & -> & _ & _ & _ & ->).
  - intros g Hg. rewrite (fr_steps _ _ _ _ Hfr), (fr_modules _ _ _ _ Hfr).
    rewrite Hoth; [done|]. intros ->. by rewrite Hact in Hg.
Qed.

(** The loop body touches the consumers of the tensor it is fed and the
    arguments of bound output tensors, nothing else among the tensors. *)
Lemma bind_kwarg_tensors_outside compare self kw st out st' x :
  bind_kwarg compare self kw st = (out, st') →
  (x ∉ values (bound_outputs (graph_of st self)) →
   producer_args (tensor_of st' x) = producer_args (tensor_of st x))
  ∧ (kw.2 ≠ ArgTensor x →
     consumers (tensor_of st' x) = consumers (tensor_of st x)).
Proof.
  destruct kw as [p [h|t]]; unfold bind_kwarg; intros H.
  - destruct (bound_input_ports (graph_of st self) !! p); by simplify_eq.
  - destruct (bound_input_ports (graph_of st self) !! p) as [d|];
      [|by simplify_eq].
    destruct (accepted _); [|by simplify_eq].
    destruct (bound_input_modules (graph_of st self) !! p) as [m|];
      [|by simplify_eq].
    simplify_eq.
    set (st1 := set_tensor t (add_consumer (tensor_of st t) m p) st).
    change (graph_of st1 self) with (graph_of st self).
    rewrite update_outputs_tensor. split.
    + intros Hx. rewrite decide_False by (by intros [? _]).
      unfold st1. destruct (decide (t = x)) as [->|Hne].
      * by rewrite tensor_of_set_tensor_eq.
      * by rewrite tensor_of_set_tensor_ne.
    + simpl. intros Hx.
      assert (Hc : consumers (tensor_of st1 x) = consumers (tensor_of st x)).
      { unfold st1. rewrite tensor_of_set_tensor_ne; [done|]. congruence. }
      by case_decide.
Qed.

Lemma bind_kwargs_tensors_outside compare self kwargs st out st' x :
  bind_kwargs compare self kwargs st = (out, st') →
  (x ∉ values (bound_outputs (graph_of st self)) →
   producer_args (tensor_of st' x) = producer_args (tensor_of st x))
  ∧ (ArgTensor x ∉ kwargs.*2 →
     consumers (tensor_of st' x) = consumers (tensor_of st x)).
Proof.
  revert st. induction kwargs as [|kw kwargs IH]; intros st H; simpl in H.
  - by simplify_eq.
  - destruct (bind_kwarg compare self kw st) as [[[]|e] st1] eqn:Hkw.
    + pose proof (bind_kwarg_frame _ _ _ _ _ _ Hkw) as Hfr.
      destruct (bind_kwarg_tensors_outside _ _ _ _ _ _ x Hkw) as [Ha Hc].
      destruct (IH _ H) as [Ha' Hc']. split.
      * intros Hx. rewrite Ha', Ha; [done..|].
        by rewrite (fr_outputs _ _ _ _ Hfr).
      * intros Hx. rewrite fmap_cons, not_elem_of_cons in Hx.
        destruct Hx as [Hx1 Hx2]. rewrite Hc', Hc; [done| |done]. congruence.
    + simplify_eq.
      destruct (bind_kwarg_tensors_outside _ _ _ _ _ _ x Hkw) as [Ha Hc].
      split; [done|]. intros Hx. rewrite fmap_cons, not_elem_of_cons in Hx.
      apply Hc. destruct Hx. congruence.
Qed.

(** X6.  An invocation that comes to an end changes the type and the
    producer of no tensor and only ever appends to consumers; it gives new
    consumers only to tensors passed as arguments, and it rewrites
    [producer_args] only in bound output tensors of the invoked graph and
    only under the names of its keyword arguments. *)
Theorem call_keeps_tensors compare valid_field_names fuel self kwargs st out st' :
  call compare valid_field_names fuel self kwargs st = Some (out, st') →
  ∀ x,
    ntype (tensor_of st' x) = ntype (tensor_of st x)
    ∧ producer (tensor_of st' x) = producer (tensor_of st x)
    ∧ consumers (tensor_of st x) `prefix_of` consumers (tensor_of st' x)
    ∧ (ArgTensor x ∉ kwargs.*2 →
       consumers (tensor_of st' x) = consumers (tensor_of st x))
    ∧ (x ∉ values (bound_outputs (graph_of st self)) →
       producer_args (tensor_of st' x) = producer_args (tensor_of st x))
    ∧ (∀ p, p ∉ kwargs.*1 →
            producer_args (tensor_of st' x) !! p
            = producer_args (tensor_of st x) !! p).
Proof.
  intros Hcall x.
  apply call_inv in Hcall as [[_ ->]|(o & st1 & _ & Hrun & Hfr & Hout)]; [done|].
  apply replay_fields in Hrun as (Hfields & Hten & _).
  assert (Hx : ∀ y, tensor_of st1 y = tensor_of st y).
  { intros y. unfold tensor_of. by rewrite Hten. }
  assert (Hkw : ∃ out2, bind_kwargs compare self kwargs st1 = (out2, st')).
  { destruct Hout as [(e & _ & ?)|[? _]]; eauto. }
  destruct Hkw as [out2 Hkw].
  destruct (bind_kwargs_tensors_outside _ _ _ _ _ _ x Hkw) as [Ha Hc].
  rewrite <- !Hx. repeat split.
  - apply (fr_ntype _ _ _ _ Hfr).
  - apply (fr_producer _ _ _ _ Hfr).
  - apply (fr_consumers _ _ _ _ Hfr).
  - done.
  - intros Hnot. apply Ha. by destruct (Hfields self) as (_ & _ & _ & _ & _ & ->).
  - intros p Hp. by apply (fr_args_other _ _ _ _ Hfr).
Qed.

(** ** Binding a port to a graph *)

(** The loop body writes the bound tables of a graph only under the name of
    its keyword argument. *)
Lemma bind_kwarg_tables_other compare self kw st out st' p h :
  bind_kwarg compare self kw st = (out, st') →
  p ≠ kw.1 →
  bound_input_ports (graph_of st' h) !! p = bound_input_ports (graph_of st h) !! p
  ∧ bound_input_tensors (graph_of st' h) !! p
    = bound_input_tensors (graph_of st h) !! p
  ∧ bound_input_modules (graph_of st' h) !! p
    = bound_input_modules (graph_of st h) !! p.
Proof.
  destruct kw as [q [h'|t]]; unfold bind_kwarg; simpl; intros H Hne.
  - destruct (bound_input_ports (graph_of st self) !! q); simplify_eq; [|done].
    destruct (decide (h' = h)) as [->|Hh].
    + rewrite graph_of_set_graph_eq. simpl. by rewrite !lookup_insert_ne.
    + by rewrite graph_of_set_graph_ne.
  - destruct (bound_input_ports (graph_of st self) !! q) as [d|];
      [|by simplify_eq].
    destruct (accepted _); [|by simplify_eq].
    destruct (bound_input_modules (graph_of st self) !! q) as [m|];
      [|by simplify_eq].
    simplify_eq.
    set (st1 := set_tensor t (add_consumer (tensor_of st t) m q) st).
    rewrite (graph_of_same_graphs st); [done|].
    by destruct (update_outputs_graphs m q t
                   (values (bound_outputs (graph_of st1 self))) st1) as [-> _].
Qed.

Lemma bind_kwargs_tables_other compare self kwargs st out st' p h :
  bind_kwargs compare self kwargs st = (out, st') →
  p ∉ kwargs.*1 →
  bound_input_ports (graph_of st' h) !! p = bound_input_ports (graph_of st h) !! p
  ∧ bound_input_tensors (graph_of st' h) !! p
    = bound_input_tensors (graph_of st h) !! p
  ∧ bound_input_modules (graph_of st' h) !! p
    = bound_input_modules (graph_of st h) !! p.
Proof.
  revert st. induction kwargs as [|kw kwargs IH]; intros st H Hp; simpl in H.
  - by simplify_eq.
  - rewrite fmap_cons, not_elem_of_cons in Hp. destruct Hp as [Hp1 Hp2].
    destruct (bind_kwarg compare self kw st) as [[[]|e] st1] eqn:Hkw.
    + destruct (bind_kwarg_tables_other _ _ _ _ _ _ p h Hkw Hp1) as (<- & <- & <-).
      by apply IH.
    + simplify_eq. by apply (bind_kwarg_tables_other _ _ _ _ _ _ p h Hkw).
Qed.

(** X7.  When the call takes up the keyword argument [p] holding a graph
    [h], [p] being a declared input port with descriptor [d], the graph [h]
    gets the input port [p] with the same descriptor, no tensor, and the
    invoked graph as its bound module, without any comparison of types; this
    is what the call leaves, whatever the later arguments do. *)
Theorem graph_argument_binds_port compare valid_field_names
    fuel self o pre p h post d st :
  active_graph st = Some o →
  self ≠ o →
  mode_conflict (operation_mode (graph_of st self))
                (operation_mode (graph_of st o)) = false →
  length (steps (graph_of st self)) < fuel →
  NoDup (pre ++ (p, ArgGraph h) :: post).*1 →
  Forall (λ kw, accepts compare st self kw = true) pre →
  bound_input_ports (graph_of st self) !! p = Some d →
  ∃ out st',
    call compare valid_field_names fuel self (pre ++ (p, ArgGraph h) :: post) st
    = Some (out, st')
    ∧ bound_input_ports (graph_of st' h) !! p = Some d
    ∧ bound_input_tensors (graph_of st' h) !! p = Some None
    ∧ bound_input_modules (graph_of st' h) !! p = Some (graph_ref st self).
Proof.
  intros Hact Hne Hmode Hfuel Hdup Hpre Hp.
  destruct (call_nested compare valid_field_names fuel self o
              (pre ++ (p, ArgGraph h) :: post) st Hact Hne Hmode Hfuel)
    as (st1 & _ & _ & Hoth & Hten & _ & Hcall).
  assert (Hself : graph_of st1 self = graph_of st self) by by apply Hoth.
  rewrite fmap_app, fmap_cons in Hdup. simpl in Hdup.
  apply NoDup_app in Hdup as (_ & _ & Hdup).
  apply NoDup_cons in Hdup as [Hp_post _].
  destruct (bind_kwargs_accepted compare self pre st1) as [st2 Hrun].
  { eapply Forall_impl; [done|]. intros kw Hkw. simpl.
    by rewrite (accepts_ext compare st st1). }
  pose proof (bind_kwargs_frame _ _ _ _ _ _ Hrun) as Hfr.
  assert (Hp2 : bound_input_ports (graph_of st2 self) !! p = Some d).
  { by rewrite (fr_ports _ _ _ _ Hfr), Hself. }
  assert (Href : graph_ref st2 self = graph_ref st self).
  { unfold graph_ref. by rewrite (fr_name _ _ _ _ Hfr), Hself. }
  set (st3 := set_graph h (bind_input (graph_of st2 h) p d (graph_ref st2 self)) st2).
  assert (Hstep : bind_kwarg compare self (p, ArgGraph h) st2 = (Returned (), st3)).
  { unfold bind_kwarg. by rewrite Hp2. }
  destruct (bind_kwargs compare self post st3) as [out3 st4] eqn:Hpost.
  destruct (bind_kwargs_tables_other _ _ _ _ _ _ p h Hpost Hp_post) as (H1 & H2 & H3).
  assert (∃ out, call compare valid_field_names fuel self
                   (pre ++ (p, ArgGraph h) :: post) st = Some (out, st4))
    as [out Hout].
  { rewrite Hcall, bind_kwargs_app, Hrun. cbn [bind_kwargs]. rewrite Hstep, Hpost.
    destruct out3 as [[]|e]; eauto. }
  exists out, st4. split; [done|].
  rewrite H1, H2, H3. unfold st3. rewrite graph_of_set_graph_eq. simpl.
  by rewrite !lookup_insert_eq, Href.
Qed.

(** ** The three bound tables go together *)

Lemma all_aligned_graph_of st :
  all_aligned st ↔ ∀ g, tables_aligned (graph_of st g).
Proof.
  unfold all_aligned, graph_of. split.
  - intros Hinv gid. rewrite lookup_total_alt.
    destruct (graphs st !! gid) as [g|] eqn:Hg; simpl; [by eapply Hinv|].
    unfold tables_aligned. simpl. by rewrite !dom_empty_L.
  - intros Hinv gid g Hg. specialize (Hinv gid).
    by rewrite (lookup_total_correct _ _ _ Hg) in Hinv.
Qed.

Lemma init_graph_tables_aligned mode nm : tables_aligned (init_graph mode nm).
Proof. unfold tables_aligned. simpl. by rewrite !dom_empty_L. Qed.

Lemma bind_input_tables_aligned g p d m :
  tables_aligned g → tables_aligned (bind_input g p d m).
Proof.
  unfold tables_aligned. simpl. intros [H1 H2].
  by rewrite !dom_insert_L, H1, H2.
Qed.

Lemma tables_aligned_ports_have_modules g :
  tables_aligned g → ports_have_modules g.
Proof. unfold tables_aligned, ports_have_modules. by intros [_ ->]. Qed.

Lemma bind_kwarg_tables_aligned compare self kw st out st' :
  bind_kwarg compare self kw st = (out, st') →
  (∀ g, tables_aligned (graph_of st g)) →
  (∀ g, tables_aligned (graph_of st' g))
  ∧ ∀ k, out ≠ Raised (KeyError k).
Proof.
  destruct kw as [p [h|t]]; unfold bind_kwarg; intros H Hinv.
  - destruct (bound_input_ports (graph_of st self) !! p); simplify_eq; [|done].
    split; [|done]. intros g. destruct (decide (h = g)) as [->|Hne].
    + rewrite graph_of_set_graph_eq. by apply bind_input_tables_aligned.
    + by rewrite graph_of_set_graph_ne.
  - destruct (bound_input_ports (graph_of st self) !! p) as [d|] eqn:Hp;
      [|by simplify_eq].
    destruct (accepted _); [|by simplify_eq].
    destruct (bound_input_modules (graph_of st self) !! p) as [m|] eqn:Hm.
    + simplify_eq. split; [|done]. intros g.
      set (st1 := set_tensor t (add_consumer (tensor_of st t) m p) st).
      rewrite (graph_of_same_graphs st); [apply Hinv|].
      by destruct (update_outputs_graphs m p t
                     (values (bound_outputs (graph_of st1 self))) st1) as [-> _].
    + exfalso. apply not_elem_of_dom in Hm. apply Hm.
      apply (tables_aligned_ports_have_modules _ (Hinv self)).
      apply elem_of_dom. eauto.
Qed.

Lemma bind_kwargs_tables_aligned compare self kwargs st out st' :
  bind_kwargs compare self kwargs st = (out, st') →
  (∀ g, tables_aligned (graph_of st g)) →
  (∀ g, tables_aligned (graph_of st' g))
  ∧ ∀ k, out ≠ Raised (KeyError k).
Proof.
  revert st. induction kwargs as [|kw kwargs IH]; intros st H Hinv; simpl in H.
  - by simplify_eq.
  - destruct (bind_kwarg compare self kw st) as [[[]|e] st1] eqn:Hkw.
    + eapply IH; [done|]. by eapply bind_kwarg_tables_aligned.
    + simplify_eq. by eapply bind_kwarg_tables_aligned.
Qed.

(** The exceptions raised before the replay, and the rest. *)
Lemma call_inv_early compare valid_field_names fuel self kwargs st out st' :
  call compare valid_field_names fuel self kwargs st = Some (out, st') →
  (st' = st ∧ (out = Raised AttributeError ∨ ∃ msg, out = Raised (TypeError msg)))
  ∨ ∃ o st1, active_graph st = Some o
      ∧ replay fuel self o 0 st = Some st1
      ∧ ((∃ e, out = Raised e
               ∧ bind_kwargs compare self kwargs st1 = (Raised e, st'))
         ∨ (bind_kwargs compare self kwargs st1 = (Returned (), st')
            ∧ out = make_results valid_field_names (graph_of st' self))).
Proof.
  unfold call. intros H.
  destruct (active_graph st) as [o|]; [|left; simplify_eq; eauto].
  destruct (check_modes _ _) as [[]|e] eqn:Hchk.
  - destruct (replay fuel self o 0 st) as [st1|] eqn:Hrun; [|done].
    destruct (bind_kwargs compare self kwargs st1) as [[[]|e] st2] eqn:Hkw;
      simplify_eq; right; exists o, st1; repeat split; eauto.
  - apply check_modes_only_type_error in Hchk as [msg ->].
    left. simplify_eq. eauto.
Qed.

(** X8.  [bind_input] and [record_step] keep the keys of the three bound
    tables of a graph equal; so does an invocation, in every graph of the
    store, and between such graphs it never raises [KeyError]: the lookup of
    the bound module at line 144 always finds its key. *)
Theorem bound_tables_stay_aligned compare valid_field_names
    fuel self kwargs st out st' g p d m module inputs :
  tables_aligned g →
  all_aligned st →
  call compare valid_field_names fuel self kwargs st = Some (out, st') →
  tables_aligned (bind_input g p d m)
  ∧ tables_aligned (record_step g module inputs)
  ∧ all_aligned st'
  ∧ ∀ k, out ≠ Raised (KeyError k).
Proof.
  intros Hg Hinv Hcall.
  split; [by apply bind_input_tables_aligned|]. split; [done|].
  rewrite all_aligned_graph_of in Hinv |- *.
  apply call_inv_early in Hcall as [[-> He]|(o & st1 & _ & Hrun & Hout)].
  - split; [done|]. intros k ->. destruct He as [?|[? ?]]; done.
  - apply replay_fields in Hrun as [Hfields _].
    assert (Hinv1 : ∀ g', tables_aligned (graph_of st1 g')).
    { intros g'. unfold tables_aligned.
      destruct (Hfields g') as (_ & _ & -> & -> & -> & _). apply Hinv. }
    destruct Hout as [(e & -> & Hkw)|[Hkw ->]].
    + destruct (bind_kwargs_tables_aligned _ _ _ _ _ _ Hkw Hinv1) as [Hal Hno].
      split; [done|]. intros k [= ->]. by apply (Hno k).
    + split; [exact (proj1 (bind_kwargs_tables_aligned _ _ _ _ _ _ Hkw Hinv1))|].
      intros k Hk. by apply make_results_raised in Hk.
Qed.

(** ** When an invocation returns *)

Lemma accepts_frame_back compare self names st st' kw :
  frame self names st st' →
  ports_have_modules (graph_of st self) →
  accepts compare st' self kw = true → accepts compare st self kw = true.
Proof.
  intros Hfr Hwf. unfold accepts. rewrite (fr_ports _ _ _ _ Hfr).
  destruct (bound_input_ports (graph_of st self) !! kw.1) as [d|] eqn:Hp; [|done].
  destruct kw.2 as [h|t]; [done|].
  rewrite (fr_ntype _ _ _ _ Hfr). intros [Hc _]%andb_true_iff.
  apply andb_true_iff. split; [done|]. apply bool_decide_eq_true.
  apply elem_of_dom, Hwf, elem_of_dom. eauto.
Qed.

Lemma frame_ports_have_modules self names st st' :
  frame self names st st' →
  ports_have_modules (graph_of st self) →
  ports_have_modules (graph_of st' self).
Proof.
  intros Hfr Hwf p Hp. rewrite (fr_ports _ _ _ _ Hfr) in Hp.
  apply elem_of_dom, (fr_bound_some _ _ _ _ Hfr), elem_of_dom. by apply Hwf.
Qed.

Lemma bind_kwargs_returned_accepts compare self kwargs st st' :
  bind_kwargs compare self kwargs st = (Returned (), st') →
  ports_have_modules (graph_of st self) →
  Forall (λ kw, accepts compare st self kw = true) kwargs.
Proof.
  revert st. induction kwargs as [|kw kwargs IH]; intros st H Hwf; [constructor|].
  simpl in H.
  destruct (bind_kwarg compare self kw st) as [[[]|e] st1] eqn:Hkw; [|done].
  pose proof (bind_kwarg_frame _ _ _ _ _ _ Hkw) as Hfr.
  constructor.
  - apply bind_kwarg_accepts. eauto.
  - eapply Forall_impl; [apply (IH st1 H)|].
    + by eapply frame_ports_have_modules.
    + intros kw'. simpl. by eapply accepts_frame_back.
Qed.

(** X9.  An invocation into another active graph, the mode test passed,
    returns a result if and only if every keyword argument is accepted (its
    name is a declared port and, for a tensor, the comparison is SAME or
    GREATER) and the graph has exactly one bound output or the names of its
    bound outputs make a named tuple. *)
Theorem call_returns_iff compare valid_field_names fuel self o kwargs st :
  active_graph st = Some o →
  self ≠ o →
  mode_conflict (operation_mode (graph_of st self))
                (operation_mode (graph_of st o)) = false →
  length (steps (graph_of st self)) < fuel →
  ports_have_modules (graph_of st self) →
  (∃ r st', call compare valid_field_names fuel self kwargs st
            = Some (Returned r, st'))
  ↔ (Forall (λ kw, accepts compare st self kw = true) kwargs
     ∧ (length (bound_outputs (graph_of st self)) = 1
        ∨ valid_field_names (keys (bound_outputs (graph_of st self))) = true)).
Proof.
  intros Hact Hne Hmode Hfuel Hwf.
  destruct (call_nested compare valid_field_names fuel self o kwargs st
              Hact Hne Hmode Hfuel)
    as (st1 & _ & _ & Hoth & Hten & _ & Hcall).
  assert (Hself : graph_of st1 self = graph_of st self) by by apply Hoth.
  split.
  - intros (r & st' & Hret). rewrite Hcall in Hret.
    destruct (bind_kwargs compare self kwargs st1) as [[[]|e] st2] eqn:Hkw;
      [|done].
    pose proof (bind_kwargs_frame _ _ _ _ _ _ Hkw) as Hfr.
    split.
    + eapply Forall_impl.
      * apply (bind_kwargs_returned_accepts _ _ _ _ _ Hkw). by rewrite Hself.
      * intros kw. simpl. by rewrite (accepts_ext compare st st1).
    + simplify_eq. unfold make_results, values in *.
      rewrite (fr_outputs _ _ _ _ Hfr), Hself in *.
      destruct (bound_outputs (graph_of st self)) as [|[n t] [|? ?]];
        simpl in *; auto;
        destruct (valid_field_names _); simplify_eq; auto.
  - intros [Hkw Hval].
    destruct (bind_kwargs_accepted compare self kwargs st1) as [st2 Hrun].
    { eapply Forall_impl; [done|]. intros kw ?. simpl.
      by rewrite (accepts_ext compare st st1). }
    pose proof (bind_kwargs_frame _ _ _ _ _ _ Hrun) as Hfr.
    rewrite Hcall, Hrun. unfold make_results.
    rewrite (fr_outputs _ _ _ _ Hfr), Hself.
    destruct Hval as [Hone|Hval].
    + destruct (bound_outputs (graph_of st self)) as [|[n t] [|? ?]];
        simpl in *; try done. eauto.
    + rewrite Hval. destruct (values _) as [|? [|? ?]]; eauto.
Qed.

(** ** The singleton: one construction for each class *)

Lemma singleton_call_fresh cls device rt :
  Singleton.instances rt !! cls = None →
  Singleton.call cls device rt
  = (Singleton.MkInstance (Singleton.next_object rt) cls
       (default Singleton.GPU device),
     Singleton.MkRuntime
       (<[cls := Singleton.MkInstance (Singleton.next_object rt) cls
                   (default Singleton.GPU device)]> (Singleton.instances rt))
       (S (Singleton.next_object rt))).
Proof.
  intros Hnone. unfold Singleton.call. rewrite !decide_True by done. simpl.
  by rewrite lookup_total_insert_eq.
Qed.

(** X10.  Over any sequence of calls the class is constructed once for each
    class that was not yet in the table: the number of objects made is the
    number of distinct new classes called; afterwards the table holds the
    classes it held and the classes called, and the entries it held are as
    they were. *)
Theorem singleton_constructs_once cs rt :
  Singleton.next_object (Singleton.calls cs rt).2
  = Singleton.next_object rt
    + size (list_to_set cs.*1 ∖ dom (Singleton.instances rt) : gset string)
  ∧ dom (Singleton.instances (Singleton.calls cs rt).2)
    = dom (Singleton.instances rt) ∪ list_to_set cs.*1
  ∧ Singleton.instances rt ⊆ Singleton.instances (Singleton.calls cs rt).2.
Proof.
  revert rt. induction cs as [|[c d] cs IH]; intros rt.
  - simpl. split; [|split; [|done]].
    + replace (∅ ∖ dom (Singleton.instances rt)) with (∅ : gset string).
      * rewrite size_empty. lia.
      * apply set_eq. intros x. rewrite elem_of_difference, elem_of_empty. tauto.
    + by rewrite (right_id_L ∅ (∪)).
  - cbn [Singleton.calls].
    destruct (Singleton.call c d rt) as [obj rt1] eqn:Hcall.
    specialize (IH rt1).
    destruct (Singleton.calls cs rt1) as [objs rt2] eqn:Hcalls.
    cbn [snd] in IH |- *. rewrite fmap_cons, list_to_set_cons. cbn [fst].
    destruct IH as (Hn & Hd & Hs).
    set (called := list_to_set cs.*1 : gset string) in *.
    destruct (Singleton.instances rt !! c) as [old|] eqn:Hreg.
    + rewrite (singleton_call_registered _ _ _ _ Hreg) in Hcall. simplify_eq.
      assert (Hc : c ∈ dom (Singleton.instances rt1)) by (apply elem_of_dom; eauto).
      assert (Hset : ({[c]} ∪ called) ∖ dom (Singleton.instances rt1)
                     = called ∖ dom (Singleton.instances rt1)).
      { apply set_eq. intros x. rewrite !elem_of_difference, elem_of_union,
          elem_of_singleton. split; [|tauto]. intros [[->|?] ?]; tauto. }
      assert (Hdom : dom (Singleton.instances rt1) ∪ ({[c]} ∪ called)
                     = dom (Singleton.instances rt1) ∪ called).
      { apply set_eq. intros x. rewrite !elem_of_union, elem_of_singleton.
        split; [|tauto]. intros [?|[->|?]]; tauto. }
      split; [|split; [|done]].
      * by rewrite Hn, Hset.
      * by rewrite Hd, Hdom.
    + rewrite (singleton_call_fresh _ _ _ Hreg) in Hcall. simplify_eq.
      simpl in *. rewrite dom_insert_L in Hn, Hd.
      assert (Hc : c ∉ dom (Singleton.instances rt)) by by apply not_elem_of_dom.
      set (D := dom (Singleton.instances rt)) in *.
      assert (Hset : ({[c]} ∪ called) ∖ D = {[c]} ∪ called ∖ ({[c]} ∪ D)).
      { apply set_eq. intros x. rewrite !elem_of_difference, !elem_of_union,
          !elem_of_difference, !elem_of_union, elem_of_singleton.
        destruct (decide (x = c)) as [->|Hx]; tauto. }
      assert (Hdisj : ({[c]} : gset string) ## called ∖ ({[c]} ∪ D)).
      { apply elem_of_disjoint. intros x. rewrite elem_of_singleton,
          elem_of_difference, elem_of_union, elem_of_singleton. tauto. }
      split; [|split].
      * rewrite Hn, Hset, (size_union _ _ Hdisj), size_singleton. lia.
      * rewrite Hd. by rewrite (assoc_L (∪)), (comm_L (∪) {[c]} D).
      * etrans; [|apply Hs]. by apply insert_subseteq.
Qed.

(** X11.  The first call for a class decides the instance: it is made with
    the device of that call, GPU when none is given, and every later call
    for the class returns this instance whatever device it asks for. *)
Theorem singleton_first_call_decides cls device cs k device' rt :
  Singleton.instances rt !! cls = None →
  ((cls, device) :: cs) !! k = Some (cls, device') →
  (Singleton.calls ((cls, device) :: cs) rt).1 !! k
  = Some (Singleton.MkInstance (Singleton.next_object rt) cls
            (default Singleton.GPU device)).
Proof.
  intros Hnone Hk. cbn [Singleton.calls].
  rewrite (singleton_call_fresh _ _ _ Hnone).
  set (obj := Singleton.MkInstance _ _ _).
  set (rt1 := Singleton.MkRuntime _ _).
  destruct (Singleton.calls cs rt1) as [objs rt2] eqn:Hcalls.
  destruct k as [|k]; [done|]. simpl in Hk |- *.
  replace objs with (Singleton.calls cs rt1).1 by by rewrite Hcalls.
  eapply singleton_calls_registered; [|done].
  unfold rt1. simpl. by rewrite lookup_insert_eq.
Qed.

(** ** Graphs that an invocation does not touch *)

Lemma bind_kwarg_graph_outside compare self kw st out st' h :
  bind_kwarg compare self kw st = (out, st') →
  kw.2 ≠ ArgGraph h →
  graph_of st' h = graph_of st h.
Proof.
  destruct kw as [p [h'|t]]; unfold bind_kwarg; simpl; intros H Hne.
  - destruct (bound_input_ports (graph_of st self) !! p); simplify_eq; [|done].
    rewrite graph_of_set_graph_ne; [done|]. congruence.
  - destruct (bound_input_ports (graph_of st self) !! p) as [d|];
      [|by simplify_eq].
    destruct (accepted _); [|by simplify_eq].
    destruct (bound_input_modules (graph_of st self) !! p) as [m|];
      [|by simplify_eq].
    simplify_eq.
    set (st1 := set_tensor t (add_consumer (tensor_of st t) m p) st).
    rewrite (graph_of_same_graphs st); [done|].
    by destruct (update_outputs_graphs m p t
                   (values (bound_outputs (graph_of st1 self))) st1) as [-> _].
Qed.

Lemma bind_kwargs_graph_outside compare self kwargs st out st' h :
  bind_kwargs compare self kwargs st = (out, st') →
  ArgGraph h ∉ kwargs.*2 →
  graph_of st' h = graph_of st h.
Proof.
  revert st. induction kwargs as [|kw kwargs IH]; intros st H Hh; simpl in H.
  - by simplify_eq.
  - rewrite fmap_cons, not_elem_of_cons in Hh. destruct Hh as [Hh1 Hh2].
    destruct (bind_kwarg compare self kw st) as [[[]|e] st1] eqn:Hkw.
    + rewrite (IH _ H Hh2). eapply bind_kwarg_graph_outside; [done|]. congruence.
    + simplify_eq. eapply bind_kwarg_graph_outside; [done|]. congruence.
Qed.

(** X12.  An invocation that comes to an end leaves every graph as it was
    that is neither the active graph nor passed as a keyword argument; so
    the invoked graph itself, nested into another graph and not passed to
    itself, is unchanged and can be nested again. *)
Theorem call_keeps_other_graphs compare valid_field_names
    fuel self kwargs st out st' h :
  call compare valid_field_names fuel self kwargs st = Some (out, st') →
  active_graph st ≠ Some h →
  ArgGraph h ∉ kwargs.*2 →
  graph_of st' h = graph_of st h.
Proof.
  intros Hcall Hact Harg.
  apply call_inv_early in Hcall as [[-> _]|(o & st1 & Ho & Hrun & Hout)]; [done|].
  assert (Hkw : ∃ out2, bind_kwargs compare self kwargs st1 = (out2, st')).
  { destruct Hout as [(e & _ & ?)|[? _]]; eauto. }
  destruct Hkw as [out2 Hkw].
  rewrite (bind_kwargs_graph_outside _ _ _ _ _ _ h Hkw Harg).
  apply (replay_writes_outer_only _ _ _ _ _ _ Hrun). intros ->. by rewrite Ho in Hact.
Qed.

(** ** The further properties on the worked configuration *)

Lemma getitem_last_recorded_witness :
  modules_from_steps (ex_inner both "inner" [("y_pred", 8)])
  ∧ getitem (ex_inner both "inner" [("y_pred", 8)]) "tm" = Returned ex_tm
  ∧ getitem (ex_inner both "inner" [("y_pred", 8)]) "source"
    = Raised (KeyError "source").
Proof.
  assert (Hm : modules_from_steps (ex_inner both "inner" [("y_pred", 8)]))
    by (vm_compute; reflexivity).
  split; [exact Hm|]. split.
  - destruct (getitem_last_recorded (ex_inner both "inner" [("y_pred", 8)])
                "tm" Hm) as [H _]. exact H.
  - destruct (getitem_last_recorded (ex_inner both "inner" [("y_pred", 8)])
                "source" Hm) as [H _]. exact H.
Defined.

Lemma len_counts_step_names_witness :
  modules_from_steps
    (record_step (ex_inner both "inner" [("y_pred", 8)]) ex_tm [("x", 7)])
  ∧ len (record_step (ex_inner both "inner" [("y_pred", 8)]) ex_tm [("x", 7)])
    = 1.
Proof.
  assert (Hm : modules_from_steps
                 (record_step (ex_inner both "inner" [("y_pred", 8)]) ex_tm
                    [("x", 7)]))
    by (vm_compute; reflexivity).
  split; [exact Hm|].
  destruct (len_counts_step_names _ Hm) as [H _]. exact H.
Defined.

Lemma nesting_twice_witness :
  ∃ out1 st1 out2 st2,
    call ex_compare ex_valid_field_names 2 2 [("x", ArgTensor 7)]
      (ex_state (Some 1)) = Some (out1, st1)
    ∧ call ex_compare ex_valid_field_names 2 2 [("zz", ArgTensor 7)] st1
      = Some (out2, st2)
    ∧ steps (graph_of st2 1)
      = steps (graph_of (ex_state (Some 1)) 1)
        ++ steps (graph_of (ex_state (Some 1)) 2)
        ++ steps (graph_of (ex_state (Some 1)) 2)
    ∧ modules (graph_of st2 1) = modules (graph_of st1 1).
Proof.
  apply (nesting_twice ex_compare ex_valid_field_names 2 2 1
           [("x", ArgTensor 7)] [("zz", ArgTensor 7)] (ex_state (Some 1))).
  - reflexivity.
  - lia.
  - reflexivity.
  - vm_compute. lia.
Defined.

Lemma call_keeps_graphs_witness :
  active_graph ex_state_after = active_graph (ex_state (Some 1))
  ∧ steps (graph_of ex_state_after 2) = steps (graph_of (ex_state (Some 1)) 2).
Proof.
  destruct (call_keeps_graphs ex_compare ex_valid_field_names 2 2
              [("x", ArgTensor 7)] (ex_state (Some 1))
              (Returned (SingleTensor 8)) ex_state_after ex_call_outcome)
    as (H1 & _ & H2).
  split; [exact H1|]. apply H2. discriminate.
Defined.

Lemma call_keeps_tensors_witness :
  consumers (tensor_of ex_state_after 9) = consumers (tensor_of (ex_state (Some 1)) 9)
  ∧ producer_args (tensor_of ex_state_after 7)
    = producer_args (tensor_of (ex_state (Some 1)) 7).
Proof.
  destruct (call_keeps_tensors ex_compare ex_valid_field_names 2 2
              [("x", ArgTensor 7)] (ex_state (Some 1))
              (Returned (SingleTensor 8)) ex_state_after ex_call_outcome 9)
    as (_ & _ & _ & H1 & _).
  destruct (call_keeps_tensors ex_compare ex_valid_field_names 2 2
              [("x", ArgTensor 7)] (ex_state (Some 1))
              (Returned (SingleTensor 8)) ex_state_after ex_call_outcome 7)
    as (_ & _ & _ & _ & H2 & _).
  split.
  - apply H1. by_decision.
  - apply H2. by_decision.
Defined.

Lemma graph_argument_binds_port_witness :
  bound_input_ports (graph_of (ex_state (Some 1)) 2) !! "x" = Some ex_type
  ∧ ∃ out st',
      call ex_compare ex_valid_field_names 2 2
        ([] ++ ("x", ArgGraph 1) :: []) (ex_state (Some 1)) = Some (out, st')
      ∧ bound_input_ports (graph_of st' 1) !! "x" = Some ex_type
      ∧ bound_input_tensors (graph_of st' 1) !! "x" = Some None
      ∧ bound_input_modules (graph_of st' 1) !! "x"
        = Some (graph_ref (ex_state (Some 1)) 2).
Proof.
  split; [reflexivity|].
  apply (graph_argument_binds_port ex_compare ex_valid_field_names 2 2 1
           [] "x" 1 [] ex_type (ex_state (Some 1))).
  - reflexivity.
  - lia.
  - reflexivity.
  - vm_compute. lia.
  - by_decision.
  - by_decision.
  - reflexivity.
Defined.

Lemma bound_tables_stay_aligned_witness :
  tables_aligned (init_graph both "g")
  ∧ all_aligned (ex_state (Some 1))
  ∧ all_aligned ex_state_after.
Proof.
  assert (Hg : tables_aligned (init_graph both "g")) by by_decision.
  assert (Hinv : all_aligned (ex_state (Some 1))) by by_decision.
  split; [exact Hg|]. split; [exact Hinv|].
  destruct (bound_tables_stay_aligned ex_compare ex_valid_field_names 2 2
              [("x", ArgTensor 7)] (ex_state (Some 1))
              (Returned (SingleTensor 8)) ex_state_after
              (init_graph both "g") "x" ex_type ex_tm ex_tm []
              Hg Hinv ex_call_outcome)
    as (_ & _ & H & _).
  exact H.
Defined.

Lemma call_returns_iff_witness :
  ports_have_modules (graph_of (ex_state (Some 1)) 6)
  ∧ ∃ r st', call ex_compare ex_valid_field_names 2 6
               [("x", ArgTensor 7)] (ex_state (Some 1))
             = Some (Returned r, st').
Proof.
  assert (Hwf : ports_have_modules (graph_of (ex_state (Some 1)) 6))
    by by_decision.
  split; [exact Hwf|].
  apply (call_returns_iff ex_compare ex_valid_field_names 2 6 1
           [("x", ArgTensor 7)] (ex_state (Some 1))).
  - reflexivity.
  - lia.
  - reflexivity.
  - vm_compute. lia.
  - exact Hwf.
  - split; [by_decision|]. right. vm_compute. reflexivity.
Defined.

Lemma singleton_first_call_decides_witness :
  Singleton.instances Singleton.empty_runtime !! "AppState" = None
  ∧ (Singleton.calls
       [("AppState", None); ("Session", None); ("AppState", Some Singleton.CPU)]
       Singleton.empty_runtime).1 !! 2
    = Some (Singleton.MkInstance 0 "AppState" Singleton.GPU).
Proof.
  split; [reflexivity|].
  apply (singleton_first_call_decides "AppState" None
           [("Session", None); ("AppState", Some Singleton.CPU)] 2
           (Some Singleton.CPU) Singleton.empty_runtime); reflexivity.
Defined.

Lemma call_keeps_other_graphs_witness :
  graph_of ex_state_after 2 = graph_of (ex_state (Some 1)) 2.
Proof.
  apply (call_keeps_other_graphs ex_compare ex_valid_field_names 2 2
           [("x", ArgTensor 7)] (ex_state (Some 1))
           (Returned (SingleTensor 8)) ex_state_after 2 ex_call_outcome).
  - discriminate.
  - by_decision.
Defined.
